(** * backfill-bsky: the backfill orchestrator, its fetch client and its
    repo-decode worker

    A shallow embedding of the orchestrator's entry file (supervisor, fetch
    scheduler, rate-limited client) and of [src/backfill/workers/repo.ts]
    (repo-decode worker), with the properties the design document states
    about them.

    Conventions of the embedding.
    - JavaScript numbers that the program uses as integers (milliseconds,
      attempt counters, header counts) are [Z] or [nat]; the embedding is
      exact for magnitudes below 2^53.
    - Objects used as dictionaries are [gmap]s; the per-collection buffer
      is an association list in the order its keys were created, and
      [Object.entries] lists it as the language orders the own keys of
      an object.
    - Strings are sequences of character codes below 256.
    - A call that can throw returns a sum; the clock, the log of sleeps and
      the messages sent are explicit state.
    - [console] output is not part of the model, nor are the listeners of
      a worker's "error" event; [Bun.write], the queue and Redis are taken
      to succeed where the embedding gives them no failure flag.
    - Library functions ([new Date(s).getTime()], [parseTID],
      [iterateAtpRepo]) and the table [writeWorkerAllocations] are
      parameters of the worker and of the supervisor; the runs at the end
      of the definitions give [parseTID] its library meaning ([Tid]). *)

From Stdlib Require Import ZArith QArith Lia Ascii String Strings.Byte.
From stdpp Require Import gmap strings list fin_maps.

Set Warnings "-register-all,-clear-no-such-hyp".
Local Open Scope string_scope.
Local Open Scope list_scope.
Local Open Scope Z_scope.

(* ===================================================================== *)
(** * JavaScript primitives                                               *)
(* ===================================================================== *)

Module Js.

(** [!s] for a value that is a string or [undefined]: true when the
    property is absent or the empty string. *)
Definition falsy (o : option string) : bool :=
  match o with
  | None => true
  | Some s => String.eqb s ""
  end.

(** White space skipped by [parseInt]: the characters of StrWhiteSpaceChar
    with a code below 256, that is TAB, LF, VT, FF, CR, SP and the
    no-break space U+00A0. A string of the embedding is a sequence of such
    codes, which is what a header value is: one character per byte. *)
Definition is_space (c : ascii) : bool :=
  let n := nat_of_ascii c in
  ((9 <=? n) && (n <=? 13))%nat || (n =? 32)%nat || (n =? 160)%nat.

Fixpoint trim_start (s : string) : string :=
  match s with
  | String c s' => if is_space c then trim_start s' else s
  | EmptyString => EmptyString
  end.

(** Value of a digit character in bases up to 36. *)
Definition digit_of (c : ascii) : option Z :=
  let n := Z.of_nat (nat_of_ascii c) in
  if (48 <=? n) && (n <=? 57) then Some (n - 48)
  else if (97 <=? n) && (n <=? 122) then Some (n - 87)
  else if (65 <=? n) && (n <=? 90) then Some (n - 55)
  else None.

(** Longest prefix of digits of the radix; [acc] is [None] until a digit
    has been read. *)
Fixpoint digits (radix : Z) (s : string) (acc : option Z) : option Z :=
  match s with
  | String c s' =>
      match digit_of c with
      | Some d =>
          if d <? radix
          then digits radix s' (Some (default 0 acc * radix + d))
          else acc
      | None => acc
      end
  | EmptyString => acc
  end.

Definition strip_sign (s : string) : Z * string :=
  match s with
  | String "-" r => (-1, r)
  | String "+" r => (1, r)
  | _ => (1, s)
  end.

Definition strip_radix (s : string) : Z * string :=
  match s with
  | String "0" (String "x" r) => (16, r)
  | String "0" (String "X" r) => (16, r)
  | _ => (10, s)
  end.

(** [parseInt(s)] with no radix argument; [None] is NaN. *)
Definition parseInt (s : string) : option Z :=
  let '(sign, s1) := strip_sign (trim_start s) in
  let '(radix, s2) := strip_radix s1 in
  Z.mul sign <$> digits radix s2 None.

(** A computation that returns or throws. *)
Inductive result (E A : Type) : Type :=
| Return (a : A)
| Throw (e : E).
Arguments Return {E A} a.
Arguments Throw {E A} e.

End Js.

(* ===================================================================== *)
(** * Record keys                                                         *)
(* ===================================================================== *)

(** The time-ordered identifiers that record keys are, as the key library
    reads them: thirteen characters of the alphabet
    [234567abcdefghijklmnopqrstuvwxyz], the first one among its first
    sixteen; the first eleven characters, read in base 32, count the
    microseconds since the Unix epoch. *)
Module Tid.

(** [S32_CHAR.indexOf(c)] for a character of the alphabet. *)
Definition s32_char (c : ascii) : option Z :=
  let n := Z.of_nat (nat_of_ascii c) in
  if (50 <=? n) && (n <=? 55) then Some (n - 50)
  else if (97 <=? n) && (n <=? 122) then Some (n - 91)
  else None.

(** [s32decode], on strings of the alphabet. *)
Fixpoint s32decode (s : string) (acc : Z) : option Z :=
  match s with
  | EmptyString => Some acc
  | String c s' =>
      match s32_char c with
      | Some d => s32decode s' (acc * 32 + d)
      | None => None
      end
  end.

(** [validate]: the length and the pattern
    [/^[234567abcdefghij][234567abcdefghijklmnopqrstuvwxyz]{12}$/]. *)
Definition validate (s : string) : bool :=
  (String.length s =? 13)%nat
  && match s with
     | String c _ =>
         match s32_char c with Some d => d <? 16 | None => false end
     | EmptyString => false
     end
  && match s32decode s 0 with Some _ => true | None => false end.

(** [parse(rkey).timestamp], [None] when [parse] throws. *)
Definition timestamp (rkey : string) : option Z :=
  if validate rkey then s32decode (String.substring 0 11 rkey) 0 else None.

End Tid.

(* ===================================================================== *)
(** * The rate-limited fetch client and the fetch scheduler               *)
(* ===================================================================== *)

Module Fetch.
Import Js.

Abbreviation HeadersObject := (gmap string string).

(** What [super.request] can throw: an [XRPCError] (a response with an
    error status), a [TypeError] (what fetch throws when the connection
    cannot be established), or anything else. *)
Inductive Error : Type :=
| XRPCError (status : Z) (kind : string) (headers : HeadersObject)
| TypeError
| OtherError.

(** [err.name] of an [XRPCError] with the given fields. The client
    library's class sets [name] to the constant "XRPCError" on every
    instance; the protocol error name of the response body
    ([RepoNotFound], ...) is the instance's [kind]. *)
Definition name (status : Z) (kind : string) (headers : HeadersObject)
  : string := "XRPCError".

Inductive Outcome : Type :=
| Response (headers : HeadersObject) (data : list byte)
| Thrown (err : Error).

(** One answer of the network: how long the call took and how it ended. *)
Record Reply : Type := { latency : Z; outcome : Outcome }.

(** The network, as the answer to the k-th call of [super.request]. *)
Definition Net : Type := nat -> Reply.

(** The client's view of the world: [Date.now()], the number of calls made
    to [super.request], and the durations passed to [sleep], oldest first. *)
Record World : Type := { clock : Z; calls : nat; slept : list Z }.

Definition sleep (ms : Z) (w : World) : World :=
  {| clock := clock w + ms; calls := calls w; slept := slept w ++ [ms] |}.

Definition call (net : Net) (w : World) : Outcome * World :=
  let r := net (calls w) in
  (outcome r,
   {| clock := clock w + latency r; calls := S (calls w); slept := slept w |}).

Definition backoffs : list Z :=
  [1000; 5000; 15000; 30000; 60000; 120000; 300000].

(** [backoffs[attempt] || 60000] *)
Definition backoff_delay (attempt : nat) : Z :=
  match backoffs !! attempt with
  | Some v => if v =? 0 then 60000 else v
  | None => 60000
  end.

(** [processRatelimitHeaders]: the argument passed to [onRatelimit], or
    [None] when [onRatelimit] is not called. [now] is [Date.now()]. *)
Definition processRatelimitHeaders (headers : HeadersObject) (now : Z)
  : option Z :=
  let remainingHeader := headers !! "ratelimit-remaining" in
  let resetHeader := headers !! "ratelimit-reset" in
  if falsy remainingHeader || falsy resetHeader then None
  else
    let ratelimitRemaining := parseInt (default "" remainingHeader) in
    if match ratelimitRemaining with
       | None => true
       | Some n => n <=? 1
       end
    then
      match parseInt (default "" resetHeader) with
      | None => None
      | Some reset =>
          let ratelimitReset := reset * 1000 in
          let waitTime := ratelimitReset - now + 1000 in
          if 0 <? waitTime then Some waitTime else None
      end
    else None.

(** [await processRatelimitHeaders(headers, url, sleep)] *)
Definition awaitRatelimit (headers : HeadersObject) (w : World) : World :=
  match processRatelimitHeaders headers (clock w) with
  | Some waitTime => sleep waitTime w
  | None => w
  end.

(** [WrappedRPC.request(options, attempt)]. The recursion of the source is
    on [attempt + 1]; [fuel] bounds its depth, and [None] means the fuel
    ran out before the request returned or threw. *)
Fixpoint request (fuel : nat) (net : Net) (attempt : nat) (w : World)
  : option (Outcome * World) :=
  match fuel with
  | O => None
  | S fuel' =>
      let '(res, w1) := call net w in
      match res with
      | Response headers data =>
          Some (Response headers data, awaitRatelimit headers w1)
      | Thrown err =>
          if (6 <? attempt)%nat then Some (Thrown err, w1)
          else
            match err with
            | XRPCError status _ headers =>
                if status =? 429
                then request fuel' net (S attempt) (awaitRatelimit headers w1)
                else Some (Thrown err, w1)
            | TypeError => Some (Thrown err, w1)
            | OtherError =>
                request fuel' net (S attempt)
                  (sleep (backoff_delay attempt) w1)
            end
      end
  end.

(** [rpc.get(...)]: the client calls [request] with the default
    [attempt = 0]; eight units of fuel cover every run (see
    [request_total]). *)
Definition get (net : Net) (w : World) : option (Outcome * World) :=
  request 8 net 0 w.

(** The scheduler's shared state: the client's world, the snapshot
    directory, the job queue (job ids, oldest first) and the Redis set
    [backfill:seen]. *)
Record Sched : Type := {
  world : World;
  files : gmap string (list byte);
  jobs : list string;
  seen : gset string
}.

Definition path_join (dir name : string) : string := dir +:+ "/" +:+ name.

(** [queue.createJob({ did }).setId(did).save()]: a job whose id is
    already queued is not added again. *)
Definition createJob (did : string) (js : list string) : list string :=
  if decide (did ∈ js) then js else js ++ [did].

(** [err.name === "RepoDeactivated" || err.name === "RepoTakendown"
     || err.name === "RepoNotFound"] *)
Definition terminal_name (name : string) : bool :=
  String.eqb name "RepoDeactivated" || String.eqb name "RepoTakendown"
  || String.eqb name "RepoNotFound".

(** [queueRepo(pds, did)] *)
Definition queueRepo (REPOS_DIR : string) (net : Net) (did : string)
    (s : Sched) : option Sched :=
  match get net (world s) with
  | None => None
  | Some (Response _ repo, w') =>
      if (0 <? length repo)%nat
      then Some {| world := w';
                   files := <[path_join REPOS_DIR did := repo]> (files s);
                   jobs := createJob did (jobs s);
                   seen := seen s |}
      else Some {| world := w'; files := files s; jobs := jobs s;
                   seen := seen s |}
  | Some (Thrown err, w') =>
      match err with
      | XRPCError status kind headers =>
          if terminal_name (name status kind headers)
          then Some {| world := w'; files := files s; jobs := jobs s;
                       seen := {[did]} ∪ seen s |}
          else Some {| world := w'; files := files s; jobs := jobs s;
                       seen := seen s |}
      | _ => Some {| world := w'; files := files s; jobs := jobs s;
                     seen := seen s |}
      end
  end.

End Fetch.

(* ===================================================================== *)
(** * The repo-decode worker (workers/repo.ts)                            *)
(* ===================================================================== *)

Module RepoWorker.
Import Js.

(** A decoded record value, as far as the worker looks into it. *)
Inductive Value : Type :=
| VNull
| VBool (b : bool)
| VNum (n : Z)
| VStr (s : string)
| VArr (items : list Value)
| VObj (fields : list (string * Value)).

(** [record[key]] on an object built from decoded fields (the last
    occurrence of a key is the one the object keeps). *)
Fixpoint field (key : string) (fields : list (string * Value))
  : option Value :=
  match fields with
  | [] => None
  | (k, v) :: rest =>
      match field key rest with
      | Some v' => Some v'
      | None => if String.eqb k key then Some v else None
      end
  end.

(** [CommitData]; [timestamp] is the millisecond value that the source
    renders with [toISOString]. *)
Record CommitData : Type := {
  uri : string;
  cid : string;
  timestamp : Z;
  obj : Value
}.

(** [CommitMessage] (its [type] is the constant ["commit"]). *)
Record CommitMessage : Type := {
  collection : string;
  commits : list CommitData
}.

(** One item yielded by [iterateAtpRepo]. *)
Record Entry : Type := {
  e_record : Value;
  e_rkey : string;
  e_collection : string;
  e_cid : string
}.

(** [commitData]: the per-collection buffer, in insertion order. *)
Abbreviation Buffer := (list (string * list CommitData)).

(** Keys that every object inherits from [Object.prototype]: for these
    [commitData[collection]] is not nullish and has no [push]. *)
Definition inherited_key (k : string) : bool :=
  bool_decide (k ∈ ["constructor"; "__proto__"; "hasOwnProperty";
                    "isPrototypeOf"; "propertyIsEnumerable";
                    "toLocaleString"; "toString"; "valueOf";
                    "__defineGetter__"; "__defineSetter__";
                    "__lookupGetter__"; "__lookupSetter__"]).

(** [(commitData[collection] ??= []).push(data)] *)
Fixpoint push (coll : string) (data : CommitData) (buf : Buffer) : Buffer :=
  match buf with
  | [] => [(coll, [data])]
  | (c, ds) :: rest =>
      if String.eqb c coll then (c, ds ++ [data]) :: rest
      else (c, ds) :: push coll data rest
  end.

(** Range of time values a [Date] can hold; [toISOString] throws outside. *)
Definition valid_date (t : Z) : bool :=
  (-8640000000000000 <=? t) && (t <=? 8640000000000000).

(** [record.createdAt] when [record] is an object that has the property
    and the property is a string:
    [!!record && typeof record === "object" && "createdAt" in record
     && typeof record.createdAt === "string"] *)
Definition createdAt_string (record : Value) : option string :=
  match record with
  | VObj fields =>
      match field "createdAt" fields with
      | Some (VStr s) => Some s
      | _ => None
      end
  | _ => None
  end.

Section Decode.
(** [new Date(s).getTime()], [None] for NaN. *)
Variable parseDate : string -> option Z.
(** [parseTID(rkey).timestamp], [None] when [parseTID] throws. *)
Variable parseTID : string -> option Z.
(** [iterateAtpRepo(repo)]: the items yielded, and whether the
    iteration then completed ([true]) or threw ([false]). *)
Variable iterateAtpRepo : list byte -> list Entry * bool.

(** The initial value of [indexedAt]:
    [(... && new Date(record.createdAt).getTime()) || 0] *)
Definition createdAt_ms (record : Value) : Z :=
  default 0 (createdAt_string record ≫= parseDate).

(** [indexedAt] after the fall-back on the record key and the clamp. *)
Definition indexedAt (now : Z) (record : Value) (rkey : string) : Z :=
  let t0 := createdAt_ms record in
  let t1 := if t0 =? 0 then default now (parseTID rkey) else t0 in
  if now <? t1 then now else t1.

(** The body of the [for await] loop over the items yielded; [false]
    when an iteration threw (the buffer keeps what was pushed). *)
Fixpoint consume (now : Z) (did : string) (es : list Entry) (buf : Buffer)
  : Buffer * bool :=
  match es with
  | [] => (buf, true)
  | e :: es' =>
      let t := indexedAt now (e_record e) (e_rkey e) in
      if negb (valid_date t) then (buf, false)
      else if inherited_key (e_collection e) then (buf, false)
      else
        let data :=
          {| uri := "at://" +:+ did +:+ "/" +:+ e_collection e +:+ "/"
                    +:+ e_rkey e;
             cid := e_cid e; timestamp := t; obj := e_record e |} in
        consume now did es' (push (e_collection e) data buf)
  end.

(** The worker's state: the snapshot directory, the Redis set
    [backfill:seen], the buffer, the paths passed to [fs.unlink] and the
    messages passed to [process.send], oldest first. *)
Record State : Type := {
  files : gmap string (list byte);
  seen : gset string;
  commitData : Buffer;
  unlinked : list string;
  sent : list CommitMessage
}.

Inductive JobEnd : Type :=
| Skipped             (* returned before decoding *)
| Decoded (ok : bool) (* went through try / catch / finally *)
| Rejected.           (* the job's promise rejected *)

(** [fs.unlink(path)] *)
Definition unlink (path : string) (s : State) : result string State :=
  match files s !! path with
  | Some _ =>
      Return {| files := delete path (files s); seen := seen s;
                commitData := commitData s;
                unlinked := unlinked s ++ [path]; sent := sent s |}
  | None => Throw "ENOENT"
  end.

(** The handler passed to [queue.process]. [did] is [job.data.did] when
    it is a string; [redis_ok] tells whether [redis.sAdd] succeeds. *)
Definition process (REPOS_DIR : string) (now : Z) (redis_ok : bool)
    (did : option string) (s : State) : State * JobEnd :=
  if falsy did then (s, Skipped)
  else
    let did := default "" did in
    let path := Fetch.path_join REPOS_DIR did in
    match files s !! path with
    | None => (s, Skipped)
    | Some repo =>
        if (length repo =? 0)%nat then (s, Skipped)
        else
          let '(entries, complete) := iterateAtpRepo repo in
          let '(buf, pushed) := consume now did entries (commitData s) in
          let ok := pushed && complete && redis_ok in
          let s1 :=
            {| files := files s;
               seen := if pushed && complete && redis_ok
                       then {[did]} ∪ seen s else seen s;
               commitData := buf; unlinked := unlinked s;
               sent := sent s |} in
          match unlink path s1 with
          | Return s2 => (s2, Decoded ok)
          | Throw _ => (s1, Rejected)
          end
    end.

(** The value of a string of decimal digits, [None] when a character is
    not a digit. *)
Fixpoint decimal (s : string) (acc : Z) : option Z :=
  match s with
  | EmptyString => Some acc
  | String c s' =>
      let n := Z.of_nat (nat_of_ascii c) in
      if (48 <=? n) && (n <=? 57) then decimal s' (acc * 10 + (n - 48))
      else None
  end.

(** The array index that a property key stands for: the key is the
    canonical decimal form of an integer from 0 to 2^32 - 2. *)
Definition array_index (k : string) : option Z :=
  match k with
  | EmptyString => None
  | String "0" EmptyString => Some 0
  | String "0" _ => None
  | _ =>
      match decimal k 0 with
      | Some n => if n <=? 4294967294 then Some n else None
      | None => None
      end
  end.

(** Insertion of an indexed entry, keeping the indices ascending. *)
Fixpoint insert_index (i : Z) (e : string * list CommitData)
    (l : list (Z * (string * list CommitData)))
  : list (Z * (string * list CommitData)) :=
  match l with
  | [] => [(i, e)]
  | (j, e') :: rest =>
      if i <? j then (i, e) :: l else (j, e') :: insert_index i e rest
  end.

(** The entries whose key is an array index, by ascending index. *)
Fixpoint index_entries (buf : Buffer)
  : list (Z * (string * list CommitData)) :=
  match buf with
  | [] => []
  | e :: rest =>
      match array_index e.1 with
      | Some i => insert_index i e (index_entries rest)
      | None => index_entries rest
      end
  end.

(** [Object.entries(commitData)]: the keys that are array indices first,
    in ascending numeric order, then the other keys in the order of their
    creation. *)
Definition entries (buf : Buffer) : Buffer :=
  (index_entries buf).*2
  ++ filter (fun e : string * list CommitData => array_index e.1 = None) buf.

(** What one run of [sendCommits] passes to [process.send]: one message
    per entry of [commitData], in the order of [Object.entries]. *)
Definition batches (buf : Buffer) : list CommitMessage :=
  map (fun '(c, ds) => {| collection := c; commits := ds |}) (entries buf).

(** [sendCommits], one tick of the 200 ms timer. *)
Definition sendCommits (s : State) : State :=
  {| files := files s; seen := seen s; commitData := commitData s;
     unlinked := unlinked s;
     sent := sent s ++ batches (commitData s) |}.

End Decode.

End RepoWorker.

(* ===================================================================== *)
(** * The supervisor (the primary process)                                *)
(* ===================================================================== *)

Module Supervisor.
Import Js.

#[export] Instance result_ret {E} : MRet (result E) := fun _ a => Return a.
#[export] Instance result_bind {E} : MBind (result E) :=
  fun _ _ f m => match m with Return a => f a | Throw e => Throw e end.

(** The environment a worker is forked with ([WORKER_KIND] and, for a
    write-by-collection worker, [WORKER_INDEX]). *)
Inductive Kind : Type :=
| Repo
| WriteCollection (index : nat)
| WriteRecord.

Inductive Role : Type := RepoRole | WriteCollectionRole | WriteRecordRole.

Definition role (k : Kind) : Role :=
  match k with
  | Repo => RepoRole
  | WriteCollection _ => WriteCollectionRole
  | WriteRecord => WriteRecordRole
  end.

#[export] Instance Role_eq_dec : EqDecision Role.
Proof. solve_decision. Defined.

Record Proc : Type := { pid : nat; kind : Kind }.

(** A message as it arrives on the IPC channel: any of the three
    properties may be absent. *)
Record RawMessage : Type := {
  m_type : option string;
  m_collection : option string;
  m_commits : option (list RepoWorker.CommitData)
}.

Definition of_commit (m : RepoWorker.CommitMessage) : RawMessage :=
  {| m_type := Some "commit";
     m_collection := Some (RepoWorker.collection m);
     m_commits := Some (RepoWorker.commits m) |}.

(** The primary's state. [cluster_workers] is [cluster.workers] (live
    workers by worker id); [repo], [writeCollection], [writeRecord],
    [writeRecord2] are the four properties of [workers]; [signalled] lists
    the worker ids [kill()] was called on and [delivered] the calls of
    [worker.send], oldest first. *)
Record State : Type := {
  cluster_workers : gmap nat Proc;
  next_id : nat;
  repo : gset nat;
  writeCollection : gmap nat nat;
  writeRecord : nat * nat;
  writeRecord2 : nat * nat;
  collectionToWriteWorkerId : gmap string nat;
  signalled : list nat;
  delivered : list (nat * RawMessage)
}.

Definition initial : State :=
  {| cluster_workers := ∅; next_id := 1; repo := ∅; writeCollection := ∅;
     writeRecord := (0, 0)%nat; writeRecord2 := (0, 0)%nat;
     collectionToWriteWorkerId := ∅; signalled := []; delivered := [] |}.

Section Run.
(** The process id the operating system gives to the worker with a
    given worker id. *)
Variable pid_of : nat -> nat.
(** [writeWorkerAllocations] of workers/writeCollection.ts: the
    collections of each write-by-collection slot. *)
Variable writeWorkerAllocations : list (list string).

(** [cluster.fork(env)]: worker ids are handed out in sequence. *)
Definition fork (k : Kind) (s : State) : nat * Proc * State :=
  let id := next_id s in
  let p := {| pid := pid_of id; kind := k |} in
  (id, p,
   {| cluster_workers := <[id := p]> (cluster_workers s);
      next_id := S id; repo := repo s;
      writeCollection := writeCollection s;
      writeRecord := writeRecord s; writeRecord2 := writeRecord2 s;
      collectionToWriteWorkerId := collectionToWriteWorkerId s;
      signalled := signalled s; delivered := delivered s |}).

Definition spawnWriteCollectionWorker (i : nat) (s : State)
  : result string State :=
  let '(id, p, s1) := fork (WriteCollection i) s in
  if (pid p =? 0)%nat then Throw "Worker process not found"
  else
    match writeWorkerAllocations !! i with
    | None => Throw "writeWorkerAllocations[i] is not iterable"
    | Some collections =>
        Return
          {| cluster_workers := cluster_workers s1;
             next_id := next_id s1; repo := repo s1;
             writeCollection := <[pid p := i]> (writeCollection s1);
             writeRecord := writeRecord s1;
             writeRecord2 := writeRecord2 s1;
             collectionToWriteWorkerId :=
               foldl (fun m c => <[c := id]> m)
                     (collectionToWriteWorkerId s1) collections;
             signalled := signalled s1; delivered := delivered s1 |}
    end.

Definition set_writeRecord (v : nat * nat) (s : State) : State :=
  {| cluster_workers := cluster_workers s; next_id := next_id s;
     repo := repo s; writeCollection := writeCollection s;
     writeRecord := v; writeRecord2 := writeRecord2 s;
     collectionToWriteWorkerId := collectionToWriteWorkerId s;
     signalled := signalled s; delivered := delivered s |}.

Definition set_writeRecord2 (v : nat * nat) (s : State) : State :=
  {| cluster_workers := cluster_workers s; next_id := next_id s;
     repo := repo s; writeCollection := writeCollection s;
     writeRecord := writeRecord s; writeRecord2 := v;
     collectionToWriteWorkerId := collectionToWriteWorkerId s;
     signalled := signalled s; delivered := delivered s |}.

(** [spawnWriteRecordWorker]: forks two workers and records them in
    [workers.writeRecord] and [workers.writeRecord2]. *)
Definition spawnWriteRecordWorker (s : State) : result string State :=
  let '(id, p, s1) := fork WriteRecord s in
  if (pid p =? 0)%nat then Throw "Worker process not found"
  else
    let s2 := set_writeRecord (pid p, id) s1 in
    let '(id2, p2, s3) := fork WriteRecord s2 in
    if (pid p2 =? 0)%nat then Throw "Worker process not found"
    else Return (set_writeRecord2 (pid p2, id2) s3).

Definition spawnRepoWorker (s : State) : result string State :=
  let '(id, p, s1) := fork Repo s in
  if (pid p =? 0)%nat then Throw "Worker process not found"
  else
    Return
      {| cluster_workers := cluster_workers s1; next_id := next_id s1;
         repo := {[pid p]} ∪ repo s1;
         writeCollection := writeCollection s1;
         writeRecord := writeRecord s1; writeRecord2 := writeRecord2 s1;
         collectionToWriteWorkerId := collectionToWriteWorkerId s1;
         signalled := signalled s1; delivered := delivered s1 |}.

(** [cluster.workers?.[id]?.kill()] *)
Definition kill (id : nat) (s : State) : State :=
  match cluster_workers s !! id with
  | None => s
  | Some _ =>
      {| cluster_workers := cluster_workers s; next_id := next_id s;
         repo := repo s; writeCollection := writeCollection s;
         writeRecord := writeRecord s; writeRecord2 := writeRecord2 s;
         collectionToWriteWorkerId := collectionToWriteWorkerId s;
         signalled := signalled s ++ [id]; delivered := delivered s |}
  end.

(** The listener of [cluster.on("exit")], given the exited process id. *)
Definition on_exit (p : nat) (s : State) : result string State :=
  if (p =? 0)%nat then Return s
  else
    match writeCollection s !! p with
    | Some index => spawnWriteCollectionWorker index s
    | None =>
        if (p =? fst (writeRecord s))%nat
        then spawnWriteRecordWorker (kill (snd (writeRecord s)) s)
        else if (p =? fst (writeRecord2 s))%nat
        then spawnWriteRecordWorker (kill (snd (writeRecord2 s)) s)
        else if decide (p ∈ repo s) then spawnRepoWorker s
        else Throw "Unknown worker kind"
    end.

(** A worker exits: it leaves [cluster.workers] and the listener runs
    with its process id. *)
Definition worker_exit (id : nat) (s : State) : result string State :=
  match cluster_workers s !! id with
  | None => Return s
  | Some p =>
      on_exit (pid p)
        {| cluster_workers := delete id (cluster_workers s);
           next_id := next_id s; repo := repo s;
           writeCollection := writeCollection s;
           writeRecord := writeRecord s; writeRecord2 := writeRecord2 s;
           collectionToWriteWorkerId := collectionToWriteWorkerId s;
           signalled := signalled s; delivered := delivered s |}
  end.

(** [worker.send(message)] *)
Definition send (id : nat) (m : RawMessage) (s : State) : State :=
  {| cluster_workers := cluster_workers s; next_id := next_id s;
     repo := repo s; writeCollection := writeCollection s;
     writeRecord := writeRecord s; writeRecord2 := writeRecord2 s;
     collectionToWriteWorkerId := collectionToWriteWorkerId s;
     signalled := signalled s; delivered := delivered s ++ [(id, m)] |}.

(** The shape test of the listener of [cluster.on("message")]:
    [message?.type !== "commit" || !message.collection
     || !message.commits] *)
Definition invalid (message : option RawMessage) : bool :=
  match message with
  | None => true
  | Some m =>
      negb (bool_decide (m_type m = Some "commit"))
      || falsy (m_collection m)
      || bool_decide (m_commits m = None)
  end.

(** [Math.random() < 0.5 ? workers.writeRecord.id : workers.writeRecord2.id] *)
Definition pick (random : Q) (s : State) : nat :=
  if negb (Qle_bool (1 # 2) random) then snd (writeRecord s)
  else snd (writeRecord2 s).

(** The listener of [cluster.on("message")]; [random] is the value of
    [Math.random()]. *)
Definition on_message (random : Q) (message : option RawMessage)
    (s : State) : result string State :=
  if invalid message then Throw "Received invalid worker message"
  else
    match message with
    | None => Throw "Received invalid worker message"
    | Some m =>
        if (length (default [] (m_commits m)) =? 0)%nat then Return s
        else
          match collectionToWriteWorkerId s
                  !! default "" (m_collection m) with
          | None => Return s
          | Some writeCollectionWorkerId =>
              let writeCollectionWorker :=
                cluster_workers s !! writeCollectionWorkerId in
              let writeRecordWorkerId := pick random s in
              match cluster_workers s !! writeRecordWorkerId with
              | None => Throw "TypeError: undefined is not an object"
              | Some _ =>
                  let s1 := send writeRecordWorkerId m s in
                  match writeCollectionWorker with
                  | None => Throw "TypeError: undefined is not an object"
                  | Some _ => Return (send writeCollectionWorkerId m s1)
                  end
              end
          end
    end.

(** Running [f] [n] times, stopping at the first throw. *)
Fixpoint times (n : nat) (f : State -> result string State) (s : State)
  : result string State :=
  match n with
  | O => Return s
  | S n' => s' ← f s; times n' f s'
  end.

(** Start-up of the primary: three write-by-collection workers, the two
    write-by-record workers, and [numCPUs * 3 - 3] repo workers. *)
Definition startup (numCPUs : nat) : result string State :=
  s1 ← spawnWriteCollectionWorker 0 initial;
  s2 ← spawnWriteCollectionWorker 1 s1;
  s3 ← spawnWriteCollectionWorker 2 s2;
  s4 ← (if (fst (writeRecord s3) =? 0)%nat
        then spawnWriteRecordWorker s3 else Return s3);
  times (numCPUs * 3 - 3) spawnRepoWorker s4.

(** The live workers of a role, and whether a process id is one the
    listener of "exit" recognises. *)
Definition live (r : Role) (s : State) : gmap nat Proc :=
  filter (fun ip => role (kind ip.2) = r) (cluster_workers s).

Definition tracked (p : nat) (s : State) : bool :=
  bool_decide (is_Some (writeCollection s !! p))
  || (p =? fst (writeRecord s))%nat
  || (p =? fst (writeRecord2 s))%nat
  || bool_decide (p ∈ repo s).

(** What the primary reacts to: the exit of a worker, a message from a
    worker (with the value [Math.random()] takes in the listener). *)
Inductive Event : Type :=
| Exit (id : nat)
| Message (random : Q) (message : option RawMessage).

Definition handle (e : Event) (s : State) : result string State :=
  match e with
  | Exit id => worker_exit id s
  | Message random message => on_message random message s
  end.

(** The states of a run: the state after start-up, and every state a
    listener returns in (a listener that throws ends the run). *)
Inductive reachable (numCPUs : nat) : State -> Prop :=
| reach_startup s :
    startup numCPUs = Return s -> reachable numCPUs s
| reach_handle s e s' :
    reachable numCPUs s -> handle e s = Return s' -> reachable numCPUs s'.

(** The bookkeeping agrees with [cluster.workers]: live workers have the
    process id of their worker id, not 0, and an id already handed out;
    a key of [workers.writeCollection] is the process id of a worker
    that, if alive, has that slot; live write-by-collection and repo
    workers are in their tables. *)
Record sound (s : State) : Prop := {
  live_fresh : forall id q, cluster_workers s !! id = Some q ->
      (id < next_id s)%nat /\ pid q = pid_of id /\ pid_of id <> 0%nat;
  table_sound : forall p i, writeCollection s !! p = Some i ->
      exists id, p = pid_of id /\ (id < next_id s)%nat
        /\ is_Some (writeWorkerAllocations !! i)
        /\ forall q, cluster_workers s !! id = Some q ->
                     kind q = WriteCollection i;
  slot_tracked : forall id q i, cluster_workers s !! id = Some q ->
      kind q = WriteCollection i ->
      writeCollection s !! pid_of id = Some i;
  repo_tracked : forall id q, cluster_workers s !! id = Some q ->
      kind q = Repo -> pid_of id ∈ repo s
}.

(** Every target of the route table is a worker id already handed out
    whose process id is in [workers.writeCollection], with a slot that
    holds the collection. *)
Definition slotted (s : State) : Prop :=
  forall c id, collectionToWriteWorkerId s !! c = Some id ->
    (id < next_id s)%nat
    /\ exists i cs, writeCollection s !! pid_of id = Some i
         /\ writeWorkerAllocations !! i = Some cs /\ c ∈ cs.

(** Every target of the route table is alive. *)
Definition route_live (s : State) : Prop :=
  forall c id, collectionToWriteWorkerId s !! c = Some id ->
    is_Some (cluster_workers s !! id).

(** [workers.writeRecord] and [workers.writeRecord2] name two live
    write-by-record workers. *)
Record paired (s : State) : Prop := {
  first_live :
    cluster_workers s !! (writeRecord s).2
    = Some {| pid := (writeRecord s).1; kind := WriteRecord |};
  second_live :
    cluster_workers s !! (writeRecord2 s).2
    = Some {| pid := (writeRecord2 s).1; kind := WriteRecord |}
}.

(** The four together. *)
Definition healthy (s : State) : Prop :=
  sound s /\ slotted s /\ route_live s /\ paired s.

End Run.

End Supervisor.

(* ===================================================================== *)
(** * Vocabulary of the design document, and concrete runs                *)
(* ===================================================================== *)

Module Design.
Import Js Fetch.

(** The back-off ladder as the design document words it: the entry for
    the attempt, the last entry (300 s) beyond the end of the ladder. *)
Definition ladder (attempt : nat) : Z :=
  default 300000 (backoffs !! attempt).

(** A terminal protocol error: an error response whose protocol error
    name (the [kind] of the [XRPCError]) says that the account is
    deactivated, taken down or not found. *)
Definition terminal (err : Error) : Prop :=
  exists status kind headers,
    err = XRPCError status kind headers
    /\ (kind = "RepoDeactivated" \/ kind = "RepoTakendown"
        \/ kind = "RepoNotFound").

(** The wait of the design document: reset time (the header counts
    seconds) minus now, plus the safety margin of one second. *)
Definition wait (reset now : Z) : Z := reset * 1000 - now + 1000.

(** The messages the shape test of the listener refuses: none at all, a
    type other than "commit", a collection that is absent or is the empty
    string, or no list of commits. *)
Definition malformed (message : option Supervisor.RawMessage) : Prop :=
  match message with
  | None => True
  | Some m =>
      Supervisor.m_type m <> Some "commit"
      \/ Supervisor.m_collection m = None
      \/ Supervisor.m_collection m = Some ""
      \/ Supervisor.m_commits m = None
  end.

(** The workers a batch can be sent to are alive: the targets of the
    route table and the two write-by-record workers are in
    [cluster.workers]. *)
Definition routable (s : Supervisor.State) : Prop :=
  (forall c id, Supervisor.collectionToWriteWorkerId s !! c = Some id ->
                is_Some (Supervisor.cluster_workers s !! id))
  /\ is_Some (Supervisor.cluster_workers s !! (Supervisor.writeRecord s).2)
  /\ is_Some (Supervisor.cluster_workers s !! (Supervisor.writeRecord2 s).2).

End Design.

Module Scenario.
Import Js Fetch.

Definition w0 : World := {| clock := 0; calls := 0; slept := [] |}.

(** Every call fails below the protocol (a time-out, a reset). *)
Definition net_down : Net :=
  fun _ => {| latency := 0; outcome := Thrown OtherError |}.

(** Headers of a response that reports the limit exhausted until
    second 100. *)
Definition exhausted : HeadersObject :=
  {[ "ratelimit-remaining" := "0"; "ratelimit-reset" := "100" ]}.

(** The same with a remaining count that is not a number. *)
Definition garbled : HeadersObject :=
  {[ "ratelimit-remaining" := "many"; "ratelimit-reset" := "100" ]}.

(** The server answers 500 with rate-limit headers. *)
Definition net_500 : Net :=
  fun _ => {| latency := 0;
              outcome := Thrown (XRPCError 500 "InternalServerError"
                                   exhausted) |}.

(** The server answers 429 once, then 200 with two bytes. *)
Definition net_429_then_ok : Net :=
  fun k => match k with
           | O => {| latency := 0;
                     outcome := Thrown (XRPCError 429 "RateLimitExceeded"
                                          exhausted) |}
           | S _ => {| latency := 0;
                       outcome := Response ∅ [x01; x02]%byte |}
           end.

(** The account is gone: the server answers 400 with the protocol error
    name RepoNotFound. *)
Definition net_not_found : Net :=
  fun _ => {| latency := 0;
              outcome := Thrown (XRPCError 400 "RepoNotFound" ∅) |}.

(** Headers with a remaining count that is there and is empty. *)
Definition blank : HeadersObject :=
  {[ "ratelimit-remaining" := ""; "ratelimit-reset" := "100" ]}.

(** The server answers 200 with a remaining count that is not a number. *)
Definition net_garbled : Net :=
  fun _ => {| latency := 0; outcome := Response garbled [x01]%byte |}.

Definition sched0 : Sched :=
  {| world := w0; files := ∅; jobs := []; seen := ∅ |}.

(** [new Date(s).getTime()] on the strings used below. *)
Definition parseDate (s : string) : option Z :=
  if String.eqb s "1970-01-01T00:00:00.000Z" then Some 0
  else if String.eqb s "2023-11-14T22:13:20.000Z" then Some 1700000000000
  else None.

(** [parseTID(rkey).timestamp] as the key library computes it. The key
    used below, [3l6oveex3ii2l], was made on 2024-10-17 at 07:06:51.642
    UTC: its timestamp is 1729148811642318. *)
Definition parseTID (rkey : string) : option Z := Tid.timestamp rkey.

(** A record with no [createdAt]. *)
Definition undated_post : RepoWorker.Value :=
  RepoWorker.VObj [("text", RepoWorker.VStr "hello")].

Definition dated_post : RepoWorker.Value :=
  RepoWorker.VObj [("createdAt", RepoWorker.VStr "2023-11-14T22:13:20.000Z")].

Definition post1 : RepoWorker.CommitData :=
  {| RepoWorker.uri := "at://did:plc:abc/app.bsky.feed.post/3l6oveex3ii2l";
     RepoWorker.cid := "bafyreia"; RepoWorker.timestamp := 1700000000000;
     RepoWorker.obj := dated_post |}.

(** A worker whose buffer holds one record, appended once. *)
Definition one_post : RepoWorker.State :=
  {| RepoWorker.files := ∅; RepoWorker.seen := ∅;
     RepoWorker.commitData :=
       RepoWorker.push "app.bsky.feed.post" post1 [];
     RepoWorker.unlinked := []; RepoWorker.sent := [] |}.

(** A decoder that yields one post and then fails. *)
Definition iterate_then_fail (repo : list byte)
  : list RepoWorker.Entry * bool :=
  ([{| RepoWorker.e_record := dated_post;
       RepoWorker.e_rkey := "3l6oveex3ii2l";
       RepoWorker.e_collection := "app.bsky.feed.post";
       RepoWorker.e_cid := "bafyreia" |}], false).

(** Process ids as the operating system might give them. *)
Definition pid_of (id : nat) : nat := (1000 + id)%nat.

(** A table of collections per write-by-collection slot. *)
Definition allocations : list (list string) :=
  [ ["app.bsky.feed.post"; "app.bsky.feed.like"];
    ["app.bsky.graph.follow"];
    ["app.bsky.actor.profile"] ].

(** The primary after start-up on two CPUs: workers 1 to 3 write by
    collection, 4 and 5 write by record, 6 to 8 decode. *)
Definition started : Supervisor.State :=
  match Supervisor.startup pid_of allocations 2 with
  | Return s => s
  | Throw _ => Supervisor.initial
  end.

(** A batch of one record whose collection is the empty string. *)
Definition unnamed_batch : Supervisor.RawMessage :=
  Supervisor.of_commit
    {| RepoWorker.collection := ""; RepoWorker.commits := [post1] |}.


(** A worker with one snapshot on disk. *)
Definition one_snapshot : RepoWorker.State :=
  {| RepoWorker.files := {[ "/tmp/repos/did:plc:abc" := [x3a; xa2]%byte ]};
     RepoWorker.seen := ∅; RepoWorker.commitData := [];
     RepoWorker.unlinked := []; RepoWorker.sent := [] |}.

End Scenario.

(* ===================================================================== *)
(** * Reading the client's runs                                           *)
(* ===================================================================== *)

Module FetchSpec.
Import Fetch.

(** An answer after which [request] tries again: a 429, or a failure that
    is neither a protocol error nor a [TypeError]. *)
Definition retryable (o : Outcome) : Prop :=
  match o with
  | Thrown (XRPCError status _ _) => status = 429
  | Thrown OtherError => True
  | _ => False
  end.

(** The numbers [processRatelimitHeaders] computes from the reset header
    stay where the program's arithmetic is exact, below 2^53 in
    magnitude. *)
Definition in_exact_range (h : HeadersObject) (now : Z) : Prop :=
  forall r, h !! "ratelimit-reset" ≫= Js.parseInt = Some r ->
            Z.abs r * 1000 + Z.abs now + 1000 < 2 ^ 53.

End FetchSpec.

(* ===================================================================== *)
(** * The scheduling loop of [main]                                       *)
(* ===================================================================== *)

Module Scheduler.

(** [s.includes(needle)] *)
Fixpoint includes (s needle : string) : bool :=
  String.prefix needle s
  || match s with
     | String _ s' => includes s' needle
     | EmptyString => false
     end.

(** The loop of [main] over the account list: the calls
    [queueRepo(pds, did)] it adds to [fetchQueue], in the order it adds
    them. [seenDids] is the copy of [backfill:seen] read before the loop. *)
Fixpoint main_loop (repos : list (string * string)) (seenDids : gset string)
  : list (string * string) :=
  match repos with
  | [] => []
  | (did, pds) :: rest =>
      if includes pds "blueski.social" then main_loop rest seenDids
      else if decide (did ∈ seenDids) then main_loop rest seenDids
      else (pds, did) :: main_loop rest seenDids
  end.

End Scheduler.

(* ===================================================================== *)
(** * Reading the worker's buffer                                         *)
(* ===================================================================== *)

Module BufferSpec.
Import RepoWorker.

(** [commitData[coll] ?? []] *)
Fixpoint records (coll : string) (buf : Buffer) : list CommitData :=
  match buf with
  | [] => []
  | (c, ds) :: rest => if String.eqb c coll then ds else records coll rest
  end.

(** A buffer as [push] builds it: one entry per collection, none empty. *)
Definition tidy (buf : Buffer) : Prop :=
  NoDup buf.*1 /\ Forall (fun e : string * list CommitData => e.2 <> []) buf.

Section Stamp.
Variable parseDate : string -> option Z.
Variable parseTID : string -> option Z.

(** The object [data] the loop builds for one item. *)
Definition record_of (now : Z) (did : string) (e : Entry) : CommitData :=
  {| uri := "at://" +:+ did +:+ "/" +:+ e_collection e +:+ "/" +:+ e_rkey e;
     cid := e_cid e;
     timestamp := indexedAt parseDate parseTID now (e_record e) (e_rkey e);
     obj := e_record e |}.

(** An item the loop body takes without throwing. *)
Definition accepted (now : Z) (e : Entry) : bool :=
  valid_date (indexedAt parseDate parseTID now (e_record e) (e_rkey e))
  && negb (inherited_key (e_collection e)).

End Stamp.

End BufferSpec.

(* ===================================================================== *)
(** * More of the supervisor's bookkeeping                                *)
(* ===================================================================== *)

Module SupervisorSpec.
Import Supervisor.

Section Run.
Variable pid_of : nat -> nat.

(** A key of [workers.repo] is the process id of a worker that, if alive,
    is a repo worker. *)
Definition repo_sound (s : State) : Prop :=
  forall p, p ∈ repo s ->
    exists id, p = pid_of id /\ (id < next_id s)%nat
      /\ forall q, cluster_workers s !! id = Some q -> kind q = Repo.

End Run.

End SupervisorSpec.

(* ===================================================================== *)
(** * The sequential replay of a recorded event log (ingestSequential.ts) *)
(* ===================================================================== *)

Module Replay.

Definition FLUSH_EVERY_N_MESSAGES : Z := 100000.

(** What the loop of [start] does, in order: [sleep(1000 / 10)], the call
    [onMessage(line)], and a flush followed by writing the position to
    [relay-buffer.pos]. *)
Inductive Event : Type :=
| Sleep
| Dispatch (line : string)
| Flush (position : Z).

(** The loop's variables and what it has done so far. *)
Record Loop : Type := {
  position : Z;
  messagesSinceTimeout : Z;
  trace : list Event
}.

Definition begin : Loop :=
  {| position := 0; messagesSinceTimeout := 0; trace := [] |}.

Section Start.
Variable startPosition : Z.
Variable maxPerSecond : Z.

(** One iteration of [for await (const line of ...)]. The test
    [messagesSinceTimeout >= maxPerSecond / 10] is written without the
    division. *)
Definition iteration (st : Loop) (line : string) : Loop :=
  let m := messagesSinceTimeout st + 1 in
  let p := position st + 1 in
  if p <? startPosition
  then {| position := p; messagesSinceTimeout := m; trace := trace st |}
  else
    let throttled := maxPerSecond <=? 10 * m in
    let t1 := if throttled then trace st ++ [Sleep] else trace st in
    let t2 := t1 ++ [Dispatch line] in
    let t3 := if p mod FLUSH_EVERY_N_MESSAGES =? 0
              then t2 ++ [Flush p] else t2 in
    {| position := p;
       messagesSinceTimeout := if throttled then 0 else m;
       trace := t3 |}.

(** The loop over the lines of the file. *)
Definition run (st : Loop) (lines : list string) : Loop :=
  foldl iteration st lines.

End Start.

(** The lines passed to [onMessage], in order. *)
Definition dispatched (t : list Event) : list string :=
  omap (fun e => match e with Dispatch l => Some l | _ => None end) t.

(** The positions written to [relay-buffer.pos], in order. *)
Definition flushed (t : list Event) : list Z :=
  omap (fun e => match e with Flush p => Some p | _ => None end) t.

(** The number of calls of [onMessage] since the last sleep. *)
Fixpoint burst_from (n : Z) (t : list Event) : Z :=
  match t with
  | [] => n
  | Sleep :: t' => burst_from 0 t'
  | Dispatch _ :: t' => burst_from (n + 1) t'
  | Flush _ :: t' => burst_from n t'
  end.

Definition burst (t : list Event) : Z := burst_from 0 t.

End Replay.

(* ===================================================================== *)
(** * Properties of the fetch client                                      *)
(* ===================================================================== *)

Section FetchFacts.
Import Js Fetch.

Lemma calls_sleep ms w : calls (sleep ms w) = calls w.
Proof. reflexivity. Qed.

Lemma calls_awaitRatelimit h w : calls (awaitRatelimit h w) = calls w.
Proof. unfold awaitRatelimit. by destruct (processRatelimitHeaders _ _). Qed.

Lemma calls_call net w : calls (call net w).2 = S (calls w).
Proof. reflexivity. Qed.

(** What the sleep log looks like after the rate-limit check. *)
Lemma slept_awaitRatelimit h w :
  slept (awaitRatelimit h w)
  = slept w ++ match processRatelimitHeaders h (clock w) with
               | Some t => [t]
               | None => []
               end.
Proof.
  unfold awaitRatelimit.
  destruct (processRatelimitHeaders _ _); simpl; [done | by rewrite app_nil_r].
Qed.

(** One unfolding of [request], by the answer of the network. *)
Lemma request_step fuel net attempt w :
  request (S fuel) net attempt w =
  match outcome (net (calls w)) with
  | Response h d => Some (Response h d, awaitRatelimit h (call net w).2)
  | Thrown err =>
      if (6 <? attempt)%nat then Some (Thrown err, (call net w).2)
      else
        match err with
        | XRPCError status _ h =>
            if status =? 429
            then request fuel net (S attempt)
                   (awaitRatelimit h (call net w).2)
            else Some (Thrown err, (call net w).2)
        | TypeError => Some (Thrown err, (call net w).2)
        | OtherError =>
            request fuel net (S attempt)
              (sleep (backoff_delay attempt) (call net w).2)
        end
  end.
Proof. reflexivity. Qed.

(** [request] returns or throws: the fuel [8 - attempt] (at least 1) is
    never used up. *)
Lemma request_total fuel net attempt w :
  (1 <= fuel)%nat -> (8 <= fuel + attempt)%nat ->
  is_Some (request fuel net attempt w).
Proof.
  revert attempt w.
  induction fuel as [|fuel IH]; intros attempt w H1 H8; [lia|].
  rewrite request_step.
  destruct (outcome (net (calls w))) as [h d|err]; [by eexists|].
  destruct (Nat.ltb_spec 6 attempt) as [Hgt|Hle]; [by eexists|].
  destruct err as [status name h| |].
  - destruct (status =? 429); [|by eexists]. apply IH; lia.
  - by eexists.
  - apply IH; lia.
Qed.

(** Every run of [request] calls the network at least once and at most
    [8 - attempt] times (once when [attempt] is beyond 7), and what it
    returns is the answer to its last call. *)
Lemma request_calls fuel net attempt w out w' :
  request fuel net attempt w = Some (out, w') ->
  (calls w < calls w')%nat
  /\ (calls w' + attempt <= calls w + Nat.max 8 (S attempt))%nat
  /\ out = outcome (net (Nat.pred (calls w'))).
Proof.
  revert attempt w out w'.
  induction fuel as [|fuel IH]; intros attempt w out w'; [done|].
  rewrite request_step.
  destruct (outcome (net (calls w))) as [h d|err] eqn:Hout.
  - intros [= <- <-]. rewrite calls_awaitRatelimit. simpl.
    split_and!; [lia | lia | done].
  - destruct (Nat.ltb_spec 6 attempt) as [Hgt|Hle].
    { intros [= <- <-]. simpl. split_and!; [lia | lia | done]. }
    destruct err as [status name h| |].
    + destruct (status =? 429).
      * intros Hr. apply IH in Hr as (Hlt & Hle' & ->).
        rewrite calls_awaitRatelimit in Hlt, Hle'. simpl in Hlt, Hle'.
        split_and!; [lia | lia | done].
      * intros [= <- <-]. simpl. split_and!; [lia | lia | done].
    + intros [= <- <-]. simpl. split_and!; [lia | lia | done].
    + intros Hr. apply IH in Hr as (Hlt & Hle' & ->).
      simpl in Hlt, Hle'. split_and!; [lia | lia | done].
Qed.

End FetchFacts.

Section FetchClaims.
Import Js Fetch Design Scenario.

(** C2, as the code has it: a request started by [get] always returns or
    throws, after at least one and at most eight calls of the network (the
    first attempt and up to seven retries), and what it hands to the
    caller is the answer to the last of these calls; so the failure of the
    eighth attempt is the one surfaced. *)
Theorem C2_request_attempts (net : Net) (w : World) :
  exists out w',
    get net w = Some (out, w')
    /\ (calls w < calls w' <= calls w + 8)%nat
    /\ out = outcome (net (Nat.pred (calls w'))).
Proof.
  destruct (request_total 8 net 0 w) as [[out w'] Hr]; [lia | lia |].
  exists out, w'. split; [exact Hr|].
  apply request_calls in Hr as (Hlt & Hle & Hout).
  simpl in Hle. split_and!; [lia | lia | exact Hout].
Qed.

(** C2 as stated fails: when every call fails below the protocol, the
    client makes eight attempts, not seven. *)
Lemma C2_seven_attempts_exceeded :
  ~ (forall (net : Net) (w : World) out w',
       get net w = Some (out, w') -> (calls w' <= calls w + 7)%nat).
Proof.
  intros H.
  specialize (H net_down w0 (Thrown OtherError)
                {| clock := 531000; calls := 8;
                   slept := [1000; 5000; 15000; 30000; 60000; 120000;
                             300000] |} eq_refl).
  simpl in H. lia.
Qed.

(** C3, as the code has it: when the call of attempt [attempt] fails below
    the protocol, then for [attempt] from 0 to 6 the client sleeps the
    entry [attempt] of the ladder 1, 5, 15, 30, 60, 120, 300 seconds and
    runs attempt [attempt + 1]; beyond 6 it sleeps nothing and throws the
    error. The look-up's fall-back beyond the ladder is 60 seconds, and no
    attempt sleeps it. *)
Theorem C3_backoff_ladder (net : Net) (attempt fuel : nat) (w : World) :
  outcome (net (calls w)) = Thrown OtherError ->
  ((attempt <= 6)%nat ->
     exists d, backoffs !! attempt = Some d
       /\ request (S fuel) net attempt w
          = request fuel net (S attempt) (sleep d (call net w).2))
  /\ ((6 < attempt)%nat ->
        request (S fuel) net attempt w
        = Some (Thrown OtherError, (call net w).2)
        /\ backoff_delay attempt = 60000).
Proof.
  intros Hout. rewrite request_step, Hout. split.
  - intros Hle.
    destruct (Nat.ltb_spec 6 attempt) as [Hgt|_]; [lia|].
    do 7 (destruct attempt as [|attempt];
          [eexists; split; reflexivity|]).
    lia.
  - intros Hgt.
    destruct (Nat.ltb_spec 6 attempt) as [_|Hle]; [|lia].
    split; [done|].
    do 7 (destruct attempt as [|attempt]; [lia|]). reflexivity.
Qed.

Lemma C3_backoff_ladder_witness :
  outcome (net_down (calls w0)) = Thrown OtherError
  /\ request 2 net_down 6 w0
     = request 1 net_down 7
         (sleep 300000 {| clock := 0; calls := 1; slept := [] |}).
Proof.
  split; [reflexivity|].
  destruct (C3_backoff_ladder net_down 6 1 w0 eq_refl) as [Hle _].
  destruct (Hle ltac:(lia)) as (d & Hd & Hr).
  injection Hd as <-. exact Hr.
Defined.

(** C3 as stated fails: at attempt 7, beyond the ladder, the client does
    not sleep the ladder's last value and retry; it throws at once. *)
Lemma C3_no_sleep_beyond_ladder :
  ~ (forall (net : Net) (attempt fuel : nat) (w : World),
       outcome (net (calls w)) = Thrown OtherError ->
       request (S fuel) net attempt w
       = request fuel net (S attempt)
           (sleep (ladder attempt) (call net w).2)).
Proof.
  intros H. specialize (H net_down 7%nat 1%nat w0 eq_refl).
  vm_compute in H. discriminate H.
Qed.

(** The rate-limit check on headers whose remaining count is unparsable
    or at most 1: the wait is the design's, applied when positive. *)
Lemma processRatelimitHeaders_exhausted (h : HeadersObject) rem rst now :
  h !! "ratelimit-remaining" = Some rem -> rem <> "" ->
  h !! "ratelimit-reset" = Some rst ->
  match parseInt rem with None => True | Some n => n <= 1 end ->
  processRatelimitHeaders h now
  = match parseInt rst with
    | Some r => if 0 <? wait r now then Some (wait r now) else None
    | None => None
    end.
Proof.
  intros Hrem Hne Hrst Hn. unfold processRatelimitHeaders.
  rewrite Hrem, Hrst. simpl.
  apply String.eqb_neq in Hne. rewrite Hne. simpl.
  destruct (String.eqb_spec rst "") as [->|_]; [done|].
  destruct (parseInt rem) as [n|].
  - destruct (Z.leb_spec n 1); [done | lia].
  - done.
Qed.

Lemma parseInt_nonempty s n : parseInt s = Some n -> s <> "".
Proof. by intros H ->. Qed.

(** C5, as the code has it: after a successful response at any attempt,
    and after a 429 response at attempts 0 to 6, whose two rate-limit
    headers are present with a remaining count of at most 1 and a reset
    time that parses, the client computes reset - now + 1000 ms and sleeps
    it exactly when it is positive (then returns, respectively retries).
    After an error response with any other status the headers are not
    looked at and nothing is slept. *)
Theorem C5_ratelimit_wait (h : HeadersObject) (rem rst : string) (n r : Z)
    (net : Net) (attempt fuel : nat) (w : World) :
  h !! "ratelimit-remaining" = Some rem -> parseInt rem = Some n -> n <= 1 ->
  h !! "ratelimit-reset" = Some rst -> parseInt rst = Some r ->
  let w1 := (call net w).2 in
  let w2 := if 0 <? wait r (clock w1)
            then sleep (wait r (clock w1)) w1 else w1 in
  (forall d, outcome (net (calls w)) = Response h d ->
     request (S fuel) net attempt w = Some (Response h d, w2))
  /\ (forall name,
        outcome (net (calls w)) = Thrown (XRPCError 429 name h) ->
        (attempt <= 6)%nat ->
        request (S fuel) net attempt w = request fuel net (S attempt) w2)
  /\ (forall status name,
        outcome (net (calls w)) = Thrown (XRPCError status name h) ->
        status <> 429 ->
        request (S fuel) net attempt w
        = Some (Thrown (XRPCError status name h), w1)).
Proof.
  intros Hrem Hn Hle Hrst Hr w1 w2.
  assert (Hw : awaitRatelimit h w1 = w2).
  { unfold awaitRatelimit.
    rewrite (processRatelimitHeaders_exhausted h rem rst (clock w1));
      [| done | by eapply parseInt_nonempty | done | by rewrite Hn].
    rewrite Hr. subst w2. by destruct (0 <? wait r (clock w1)). }
  split_and!.
  - intros d Hout. by rewrite request_step, Hout, <- Hw.
  - intros name Hout Hatt. rewrite request_step, Hout.
    destruct (Nat.ltb_spec 6 attempt) as [Hgt|_]; [lia|].
    by rewrite <- Hw.
  - intros status name Hout Hst. rewrite request_step, Hout.
    destruct (6 <? attempt)%nat; [done|].
    destruct (Z.eqb_spec status 429) as [->|_]; done.
Qed.

Lemma C5_ratelimit_wait_witness :
  request 2 net_429_then_ok 0 w0
  = request 1 net_429_then_ok 1
      {| clock := 101000; calls := 1; slept := [101000] |}.
Proof.
  destruct (C5_ratelimit_wait exhausted "0" "100" 0 100
              net_429_then_ok 0 1 w0 eq_refl eq_refl ltac:(lia)
              eq_refl eq_refl) as (_ & H429 & _).
  exact (H429 "RateLimitExceeded" eq_refl ltac:(lia)).
Defined.

(** C5 as stated fails: a 500 response (a failure) that carries the
    headers of an exhausted limit, with a positive computed wait, is
    thrown to the caller without any sleep. *)
Lemma C5_no_wait_after_other_failure :
  processRatelimitHeaders exhausted 0 = Some 101000
  /\ get net_500 w0
     = Some (Thrown (XRPCError 500 "InternalServerError" exhausted),
             {| clock := 0; calls := 1; slept := [] |}).
Proof. split; reflexivity. Qed.

(** [parseInt] skips a no-break space before the digits, as it skips a
    blank. *)
Lemma parseInt_skips_no_break_space :
  parseInt (String (ascii_of_nat 160) "5") = Some 5
  /\ parseInt " 5" = Some 5.
Proof. split; reflexivity. Qed.

(** The rate-limit check does nothing when a header is absent or empty. *)
Lemma awaitRatelimit_missing (h : HeadersObject) (w : World) :
  falsy (h !! "ratelimit-remaining") = true
  \/ falsy (h !! "ratelimit-reset") = true ->
  awaitRatelimit h w = w.
Proof.
  intros Hm. unfold awaitRatelimit, processRatelimitHeaders.
  destruct Hm as [-> | ->]; simpl; [done|]. by rewrite orb_true_r.
Qed.

(** C10, as the code has it. When the remaining-count header has a value
    that is not empty and is not a number, and the reset header is there,
    the client sleeps reset - now + 1000 ms when the reset header parses
    and that duration is positive, and does not sleep otherwise: after a
    successful response before it returns, after a 429 response at
    attempts 0 to 6 before it retries; and it does exactly what it does
    for the same headers with a remaining count that parses to at most 1.
    When either header is absent or has the empty string as its value,
    the client does not sleep. *)
Theorem C10_unparsable_remaining (h : HeadersObject) (net : Net)
    (attempt fuel : nat) (w : World) :
  let w1 := (call net w).2 in
  (forall rem rst,
     h !! "ratelimit-remaining" = Some rem -> rem <> "" ->
     parseInt rem = None ->
     h !! "ratelimit-reset" = Some rst ->
     let w2 := match parseInt rst with
               | Some r => if 0 <? wait r (clock w1)
                           then sleep (wait r (clock w1)) w1 else w1
               | None => w1
               end in
     awaitRatelimit h w1 = w2
     /\ (forall d, outcome (net (calls w)) = Response h d ->
           request (S fuel) net attempt w = Some (Response h d, w2))
     /\ (forall kind,
           outcome (net (calls w)) = Thrown (XRPCError 429 kind h) ->
           (attempt <= 6)%nat ->
           request (S fuel) net attempt w = request fuel net (S attempt) w2)
     /\ (forall rem' n,
           parseInt rem' = Some n -> n <= 1 ->
           awaitRatelimit (<["ratelimit-remaining" := rem']> h) w1 = w2))
  /\ (h !! "ratelimit-remaining" = None
      \/ h !! "ratelimit-remaining" = Some ""
      \/ h !! "ratelimit-reset" = None
      \/ h !! "ratelimit-reset" = Some "" ->
      awaitRatelimit h w1 = w1
      /\ (forall d, outcome (net (calls w)) = Response h d ->
            request (S fuel) net attempt w = Some (Response h d, w1))).
Proof.
  intros w1. split.
  - intros rem rst Hrem Hne Hnan Hrst w2.
    assert (Hexh : forall h' rem',
              h' !! "ratelimit-remaining" = Some rem' -> rem' <> "" ->
              h' !! "ratelimit-reset" = Some rst ->
              match parseInt rem' with None => True | Some n => n <= 1 end ->
              awaitRatelimit h' w1 = w2).
    { intros h' rem' Hrem' Hne' Hrst' Hn'. unfold awaitRatelimit.
      rewrite (processRatelimitHeaders_exhausted h' rem' rst (clock w1))
        by done.
      subst w2. destruct (parseInt rst) as [r|]; [|done].
      by destruct (0 <? wait r (clock w1)). }
    assert (Hw : awaitRatelimit h w1 = w2).
    { apply (Hexh h rem); try done. by rewrite Hnan. }
    split_and!.
    + exact Hw.
    + intros d Hout. by rewrite request_step, Hout, <- Hw.
    + intros kind Hout Hatt. rewrite request_step, Hout.
      destruct (Nat.ltb_spec 6 attempt) as [Hgt|_]; [lia|].
      by rewrite <- Hw.
    + intros rem' n Hn Hle. apply (Hexh _ rem').
      * by rewrite lookup_insert_eq.
      * by eapply parseInt_nonempty.
      * by rewrite lookup_insert_ne.
      * by rewrite Hn.
  - intros Hmiss.
    assert (Hw : awaitRatelimit h w1 = w1).
    { apply awaitRatelimit_missing.
      destruct Hmiss as [-> | [-> | [-> | ->]]]; simpl; tauto. }
    split; [exact Hw|].
    intros d Hout. by rewrite request_step, Hout, <- Hw.
Qed.

Lemma C10_unparsable_remaining_witness :
  request 1 net_garbled 0 w0
  = Some (Response garbled [x01]%byte,
          {| clock := 101000; calls := 1; slept := [101000] |})
  /\ awaitRatelimit (<["ratelimit-remaining" := "1"]> garbled)
       {| clock := 0; calls := 1; slept := [] |}
     = {| clock := 101000; calls := 1; slept := [101000] |}
  /\ awaitRatelimit {[ "ratelimit-remaining" := "0" ]}
       {| clock := 0; calls := 1; slept := [] |}
     = {| clock := 0; calls := 1; slept := [] |}.
Proof.
  destruct (C10_unparsable_remaining garbled net_garbled 0 0 w0)
    as [Hnan _].
  destruct (Hnan "many" "100" eq_refl ltac:(discriminate) eq_refl eq_refl)
    as (_ & Hok & _ & Hsame).
  split_and!;
    [exact (Hok [x01]%byte eq_refl) | exact (Hsame "1" 1 eq_refl ltac:(lia)) |].
  destruct (C10_unparsable_remaining {[ "ratelimit-remaining" := "0" ]}
              net_garbled 0 0 w0) as [_ Hmissing].
  exact (proj1 (Hmissing (or_intror (or_intror (or_introl eq_refl))))).
Defined.

(** C10 as stated fails: a remaining-count header that is there with the
    empty string as its value does not parse as a number, the reset header
    parses and the computed wait is positive, and the client does not
    sleep. *)
Lemma C10_empty_remaining_no_wait :
  ~ (forall (h : HeadersObject) (rem rst : string) (r : Z) (w : World),
       h !! "ratelimit-remaining" = Some rem -> parseInt rem = None ->
       h !! "ratelimit-reset" = Some rst -> parseInt rst = Some r ->
       0 < wait r (clock w) ->
       awaitRatelimit h w = sleep (wait r (clock w)) w).
Proof.
  intros H.
  specialize (H blank "" "100" 100 w0 eq_refl eq_refl eq_refl eq_refl
                eq_refl).
  vm_compute in H. discriminate H.
Qed.

(** The name of an [XRPCError] is never one of the three that [queueRepo]
    looks for. *)
Lemma name_not_terminal (status : Z) (kind : string) (h : HeadersObject) :
  terminal_name (name status kind h) = false.
Proof. done. Qed.

(** When the fetch of an account ends in an error, whichever it is,
    [queueRepo] enqueues no job, writes no snapshot and leaves the
    Seen-Set as it was. *)
Lemma queueRepo_failed_fetch (dir : string) (net : Net) (did : string)
    (s : Sched) (err : Error) (w' : World) :
  get net (world s) = Some (Thrown err, w') ->
  queueRepo dir net did s
  = Some {| world := w'; files := files s; jobs := jobs s; seen := seen s |}.
Proof.
  intros Hget. unfold queueRepo. rewrite Hget.
  destruct err as [status kind h| |]; [|done|done].
  by rewrite name_not_terminal.
Qed.

(** C7 at a failing input: the fetch of an account is answered 400 with
    the protocol error name RepoNotFound, a terminal protocol error.
    [queueRepo] enqueues no job, and does not add the account to the
    Seen-Set: the test that guards [redis.sAdd] reads the error's [name],
    which is "XRPCError", where the protocol error name is the error's
    [kind]. *)
Theorem C7_terminal_failure_not_recorded :
  terminal (XRPCError 400 "RepoNotFound" ∅)
  /\ get net_not_found (world sched0)
     = Some (Thrown (XRPCError 400 "RepoNotFound" ∅),
             {| clock := 0; calls := 1; slept := [] |})
  /\ name 400 "RepoNotFound" ∅ = "XRPCError"
  /\ exists s',
       queueRepo "/tmp/repos" net_not_found "did:plc:gone" sched0 = Some s'
       /\ ("did:plc:gone" ∉ seen s')
       /\ seen s' = seen sched0
       /\ jobs s' = [] /\ files s' = ∅.
Proof.
  split_and!.
  - exists 400, "RepoNotFound", ∅. tauto.
  - reflexivity.
  - reflexivity.
  - eexists. split.
    + apply (queueRepo_failed_fetch _ _ _ _ (XRPCError 400 "RepoNotFound" ∅)).
      reflexivity.
    + simpl. split_and!; done.
Qed.

End FetchClaims.

(* ===================================================================== *)
(** * Properties of the repo-decode worker                                *)
(* ===================================================================== *)

Section RepoWorkerClaims.
Import Js RepoWorker Scenario.

(** A tick of [sendCommits] sends the whole buffer and leaves it as it
    was. *)
Lemma sendCommits_keeps_buffer (s : State) :
  commitData (sendCommits s) = commitData s
  /\ sent (sendCommits s) = sent s ++ batches (commitData s).
Proof. done. Qed.

(** C1 at a failing input: a buffer that holds one record, appended once.
    Two ticks of [sendCommits] with no append in between send the record
    twice, and the buffer still holds it. *)
Theorem C1_second_tick_resends :
  sent (sendCommits (sendCommits one_post))
  = [ {| collection := "app.bsky.feed.post"; commits := [post1] |};
      {| collection := "app.bsky.feed.post"; commits := [post1] |} ]
  /\ commitData (sendCommits (sendCommits one_post))
     = [("app.bsky.feed.post", [post1])].
Proof. split; reflexivity. Qed.

Section Decoder.
Variable parseDate : string -> option Z.
Variable parseTID : string -> option Z.
Variable iterateAtpRepo : list byte -> list Entry * bool.

(** C6: a job whose snapshot is read and is not empty ends with the
    snapshot deleted: [fs.unlink] is called once, with the snapshot's
    path, whatever the decoder and Redis do, and the file is gone
    afterwards (no other file is touched). *)
Theorem C6_snapshot_deleted (dir : string) (now : Z) (redis_ok : bool)
    (did : string) (s : State) (repo : list byte) :
  did <> "" ->
  files s !! Fetch.path_join dir did = Some repo ->
  repo <> [] ->
  exists s' ok,
    process parseDate parseTID iterateAtpRepo dir now redis_ok
      (Some did) s = (s', Decoded ok)
    /\ files s' !! Fetch.path_join dir did = None
    /\ files s' = delete (Fetch.path_join dir did) (files s)
    /\ unlinked s' = unlinked s ++ [Fetch.path_join dir did].
Proof.
  intros Hdid Hfile Hne. unfold process. simpl.
  apply String.eqb_neq in Hdid. rewrite Hdid, Hfile.
  destruct repo as [|b repo]; [done|]. simpl.
  destruct (iterateAtpRepo (b :: repo)) as [entries complete].
  destruct (consume _ _ _ _ _ _) as [buf pushed].
  unfold unlink. simpl. rewrite Hfile.
  eexists _, _. split_and!; try done. simpl. apply lookup_delete_eq.
Qed.

(** The time the worker stamps on a record, case by case. *)
Lemma indexedAt_cases (now : Z) (record : Value) (rkey : string) :
  indexedAt parseDate parseTID now record rkey
  = Z.min now
      (match createdAt_string record ≫= parseDate with
       | Some t => if t =? 0 then default now (parseTID rkey) else t
       | None => default now (parseTID rkey)
       end).
Proof.
  unfold indexedAt, createdAt_ms.
  destruct (createdAt_string record ≫= parseDate) as [t|]; simpl.
  - destruct (t =? 0).
    + destruct (Z.ltb_spec now (default now (parseTID rkey))); lia.
    + destruct (Z.ltb_spec now t); lia.
  - destruct (Z.ltb_spec now (default now (parseTID rkey))); lia.
Qed.

(** Each record the loop takes is pushed on the buffer of its collection
    with the time [indexedAt] as its timestamp. *)
Lemma consume_stamps (now : Z) (did : string) (e : Entry) (es : list Entry)
    (buf : Buffer) :
  valid_date (indexedAt parseDate parseTID now (e_record e) (e_rkey e))
  = true ->
  inherited_key (e_collection e) = false ->
  consume parseDate parseTID now did (e :: es) buf
  = consume parseDate parseTID now did es
      (push (e_collection e)
         {| uri := "at://" +:+ did +:+ "/" +:+ e_collection e +:+ "/"
                   +:+ e_rkey e;
            cid := e_cid e;
            timestamp := indexedAt parseDate parseTID now (e_record e)
                           (e_rkey e);
            obj := e_record e |} buf).
Proof. intros Hv Hk. simpl. by rewrite Hv, Hk. Qed.

(** The time of a record key never reaches a record. [parseTID] gives
    the key's time [t] in microseconds, and the code compares and stores
    it as milliseconds: for a record with no usable [createdAt] and a key
    made at a time after the epoch and before the time of decoding, the
    time stamped is not the key's time in milliseconds, [t / 1000]; it is
    the time of decoding when [t] is above it. *)
Lemma indexedAt_key_unit (now : Z) (record : Value) (rkey : string)
    (t : Z) :
  createdAt_ms parseDate record = 0 ->
  parseTID rkey = Some t -> 0 < t -> t / 1000 < now ->
  indexedAt parseDate parseTID now record rkey <> t / 1000
  /\ (now < t -> indexedAt parseDate parseTID now record rkey = now).
Proof.
  intros Hc Ht Hpos Hpast. unfold indexedAt. rewrite Hc, Ht. simpl.
  assert (t / 1000 < t) by (apply Z.div_lt; lia).
  destruct (Z.ltb_spec now t); split; lia.
Qed.

End Decoder.

Lemma C6_snapshot_deleted_witness :
  exists s' ok,
    process parseDate parseTID iterate_then_fail "/tmp/repos"
      1800000000000 true (Some "did:plc:abc") one_snapshot
    = (s', Decoded ok)
    /\ files s' !! "/tmp/repos/did:plc:abc" = None
    /\ files s' = delete "/tmp/repos/did:plc:abc" (files one_snapshot)
    /\ unlinked s' = [] ++ ["/tmp/repos/did:plc:abc"].
Proof.
  apply (C6_snapshot_deleted parseDate parseTID iterate_then_fail
           "/tmp/repos" 1800000000000 true "did:plc:abc" one_snapshot
           [x3a; xa2]%byte);
    [discriminate | reflexivity | discriminate].
Defined.

(** C8 at a failing input: a record with no [createdAt] whose key
    [3l6oveex3ii2l] was made on 2024-10-17 at 07:06:51.642 UTC
    (1729148811642 ms), decoded when the clock reads 1800000000000 ms
    (2027-01-15). The key parses and its time is in the past, so the time
    to stamp is the key's; the code stamps the time of decoding, because
    it compares the key's count of microseconds with the clock's count of
    milliseconds. *)
Theorem C8_key_time_replaced_by_now :
  createdAt_string undated_post = None
  /\ parseTID "3l6oveex3ii2l" = Some 1729148811642318
  /\ 1729148811642318 / 1000 = 1729148811642
  /\ 1729148811642 < 1800000000000
  /\ indexedAt parseDate parseTID 1800000000000 undated_post "3l6oveex3ii2l"
     = 1800000000000.
Proof. split_and!; reflexivity. Qed.

End RepoWorkerClaims.

(* ===================================================================== *)
(** * Invariants of the supervisor's bookkeeping                          *)
(* ===================================================================== *)

Section SupervisorInvariants.
Import Js Supervisor.

Variable pid_of : nat -> nat.
Variable allocations : list (list string).
Hypothesis pid_of_inj : forall a b, pid_of a = pid_of b -> a = b.

Local Abbreviation sound := (sound pid_of allocations).
Local Abbreviation slotted := (slotted pid_of allocations).

(** The route table after the loop of [spawnWriteCollectionWorker]. *)
Lemma route_after (cs : list string) (m : gmap string nat) (id : nat)
    (c : string) :
  foldl (fun m c => <[c := id]> m) m cs !! c
  = if decide (c ∈ cs) then Some id else m !! c.
Proof.
  revert m. induction cs as [|a cs IH]; intros m; simpl.
  - destruct (decide (c ∈ [])) as [Hin|_]; [by apply elem_of_nil in Hin | done].
  - rewrite IH.
    destruct (decide (c ∈ cs)) as [Hin|Hin];
      destruct (decide (c ∈ a :: cs)) as [Hin'|Hin']; try done.
    + exfalso. apply Hin'. by right.
    + apply elem_of_cons in Hin' as [->|Hin']; [|done].
      apply lookup_insert_eq.
    + apply lookup_insert_ne. intros ->. apply Hin'. by left.
Qed.

Lemma spawnWriteCollectionWorker_Return i s s' :
  spawnWriteCollectionWorker pid_of allocations i s = Return s' ->
  exists cs,
    allocations !! i = Some cs /\ pid_of (next_id s) <> 0%nat
    /\ s' = {| cluster_workers :=
                 <[next_id s := {| pid := pid_of (next_id s);
                                   kind := WriteCollection i |}]>
                   (cluster_workers s);
               next_id := S (next_id s); repo := repo s;
               writeCollection :=
                 <[pid_of (next_id s) := i]> (writeCollection s);
               writeRecord := writeRecord s;
               writeRecord2 := writeRecord2 s;
               collectionToWriteWorkerId :=
                 foldl (fun m c => <[c := next_id s]> m)
                       (collectionToWriteWorkerId s) cs;
               signalled := signalled s; delivered := delivered s |}.
Proof.
  unfold spawnWriteCollectionWorker, fork. simpl.
  destruct (Nat.eqb_spec (pid_of (next_id s)) 0) as [|Hpid]; [done|].
  destruct (allocations !! i) as [cs|]; [|done].
  intros [= <-]. by exists cs.
Qed.

Lemma spawnRepoWorker_Return s s' :
  spawnRepoWorker pid_of s = Return s' ->
  pid_of (next_id s) <> 0%nat
  /\ s' = {| cluster_workers :=
               <[next_id s := {| pid := pid_of (next_id s); kind := Repo |}]>
                 (cluster_workers s);
             next_id := S (next_id s);
             repo := {[pid_of (next_id s)]} ∪ repo s;
             writeCollection := writeCollection s;
             writeRecord := writeRecord s; writeRecord2 := writeRecord2 s;
             collectionToWriteWorkerId := collectionToWriteWorkerId s;
             signalled := signalled s; delivered := delivered s |}.
Proof.
  unfold spawnRepoWorker, fork. simpl.
  destruct (Nat.eqb_spec (pid_of (next_id s)) 0) as [|Hpid]; [done|].
  by intros [= <-].
Qed.

Lemma spawnWriteRecordWorker_Return s s' :
  spawnWriteRecordWorker pid_of s = Return s' ->
  pid_of (next_id s) <> 0%nat /\ pid_of (S (next_id s)) <> 0%nat
  /\ s' = {| cluster_workers :=
               <[S (next_id s) := {| pid := pid_of (S (next_id s));
                                     kind := WriteRecord |}]>
                 (<[next_id s := {| pid := pid_of (next_id s);
                                    kind := WriteRecord |}]>
                    (cluster_workers s));
             next_id := S (S (next_id s)); repo := repo s;
             writeCollection := writeCollection s;
             writeRecord := (pid_of (next_id s), next_id s);
             writeRecord2 := (pid_of (S (next_id s)), S (next_id s));
             collectionToWriteWorkerId := collectionToWriteWorkerId s;
             signalled := signalled s; delivered := delivered s |}.
Proof.
  unfold spawnWriteRecordWorker, fork. simpl.
  destruct (Nat.eqb_spec (pid_of (next_id s)) 0) as [|Hpid]; [done|].
  simpl.
  destruct (Nat.eqb_spec (pid_of (S (next_id s))) 0) as [|Hpid2]; [done|].
  by intros [= <-].
Qed.

(** Forking one worker and entering it in the table of its kind keeps the
    bookkeeping sound. *)
Lemma sound_fork (k : Kind) (s s' : State) :
  sound s ->
  pid_of (next_id s) <> 0%nat ->
  cluster_workers s'
  = <[next_id s := {| pid := pid_of (next_id s); kind := k |}]>
      (cluster_workers s) ->
  next_id s' = S (next_id s) ->
  match k with
  | WriteCollection i =>
      writeCollection s' = <[pid_of (next_id s) := i]> (writeCollection s)
      /\ is_Some (allocations !! i)
  | _ => writeCollection s' = writeCollection s
  end ->
  match k with
  | Repo => repo s' = {[pid_of (next_id s)]} ∪ repo s
  | _ => repo s' = repo s
  end ->
  sound s'.
Proof.
  intros [Hfresh Htable Hslot Hrepo] Hpid Hc Hn Ht Hr.
  constructor.
  - intros id q. rewrite Hc, Hn.
    destruct (decide (next_id s = id)) as [<-|Hne].
    + rewrite lookup_insert_eq. intros [= <-]. simpl. split_and!; [lia|done..].
    + rewrite lookup_insert_ne by done. intros Hq.
      destruct (Hfresh _ _ Hq) as (? & ? & ?). split_and!; [lia|done..].
  - intros p i Hp.
    assert (Hold : writeCollection s !! p = Some i ->
                   exists id, p = pid_of id /\ (id < next_id s')%nat
                     /\ is_Some (allocations !! i)
                     /\ forall q, cluster_workers s' !! id = Some q ->
                                  kind q = WriteCollection i).
    { intros Hp0. destruct (Htable _ _ Hp0) as (id & -> & Hlt & Ha & Hk).
      exists id. rewrite Hn, Hc. split_and!; [done | lia | done |].
      intros q. rewrite lookup_insert_ne by lia. apply Hk. }
    destruct k as [|j|]; try (rewrite Ht in Hp; by apply Hold).
    destruct Ht as [Ht Ha]. rewrite Ht in Hp.
    destruct (decide (pid_of (next_id s) = p)) as [<-|Hne].
    + rewrite lookup_insert_eq in Hp. injection Hp as ->.
      exists (next_id s). rewrite Hn, Hc. split_and!; [done | lia | done |].
      intros q. rewrite lookup_insert_eq. by intros [= <-].
    + rewrite lookup_insert_ne in Hp by done. by apply Hold.
  - intros id q i. rewrite Hc.
    destruct (decide (next_id s = id)) as [<-|Hne].
    + rewrite lookup_insert_eq. intros [= <-]. simpl. intros ->.
      destruct Ht as [-> _]. apply lookup_insert_eq.
    + rewrite lookup_insert_ne by done. intros Hq Hk.
      pose proof (Hslot _ _ _ Hq Hk) as Hs.
      destruct k as [|j|]; try (by rewrite Ht).
      destruct Ht as [-> _]. rewrite lookup_insert_ne; [done|].
      intros He. by apply pid_of_inj in He.
  - intros id q. rewrite Hc.
    destruct (decide (next_id s = id)) as [<-|Hne].
    + rewrite lookup_insert_eq. intros [= <-]. simpl. intros ->.
      rewrite Hr. set_solver.
    + rewrite lookup_insert_ne by done. intros Hq Hk.
      pose proof (Hrepo _ _ Hq Hk) as Hs.
      destruct k as [|j|]; rewrite Hr; set_solver.
Qed.

(** Removing a worker from [cluster.workers] keeps it sound. *)
Lemma sound_delete (id : nat) (s s' : State) :
  sound s ->
  cluster_workers s' = delete id (cluster_workers s) ->
  next_id s' = next_id s -> writeCollection s' = writeCollection s ->
  repo s' = repo s ->
  sound s'.
Proof.
  intros [Hfresh Htable Hslot Hrepo] Hc Hn Ht Hr.
  constructor.
  - intros id' q. rewrite Hc, Hn. intros Hq.
    apply lookup_delete_Some in Hq as [_ Hq]. eauto.
  - intros p i. rewrite Ht, Hn. intros Hp.
    destruct (Htable _ _ Hp) as (id' & -> & Hlt & Ha & Hk).
    exists id'. split_and!; try done.
    intros q. rewrite Hc. intros Hq.
    apply lookup_delete_Some in Hq as [_ Hq]. eauto.
  - intros id' q i. rewrite Hc, Ht. intros Hq.
    apply lookup_delete_Some in Hq as [_ Hq]. eauto.
  - intros id' q. rewrite Hc, Hr. intros Hq.
    apply lookup_delete_Some in Hq as [_ Hq]. eauto.
Qed.

(** A state with the same tables is as sound. *)
Lemma sound_same (s s' : State) :
  sound s ->
  cluster_workers s' = cluster_workers s -> next_id s' = next_id s ->
  writeCollection s' = writeCollection s -> repo s' = repo s ->
  sound s'.
Proof.
  intros [Hfresh Htable Hslot Hrepo] Hc Hn Ht Hr.
  constructor; rewrite ?Hc, ?Hn, ?Ht, ?Hr; done.
Qed.

(** Route targets keep their slot when ids are handed out and the table
    gains the process id of a new worker. *)
Lemma slotted_grow (s s' : State) (entry : option nat) :
  slotted s ->
  (next_id s <= next_id s')%nat ->
  collectionToWriteWorkerId s' = collectionToWriteWorkerId s ->
  writeCollection s'
  = match entry with
    | Some i => <[pid_of (next_id s) := i]> (writeCollection s)
    | None => writeCollection s
    end ->
  slotted s'.
Proof.
  intros Hs Hn Hroute Ht c id. rewrite Hroute. intros Hc.
  destruct (Hs _ _ Hc) as (Hlt & i & cs & Hi & Ha & Hin).
  split; [lia|]. exists i, cs. split_and!; try done.
  rewrite Ht. destruct entry as [j|]; [|done].
  rewrite lookup_insert_ne; [done|].
  intros He. apply pid_of_inj in He. lia.
Qed.

(** The route table after [spawnWriteCollectionWorker i]: the collections
    of slot [i] go to the new worker, the others where they went. *)
Lemma slotted_spawn (i : nat) (s s' : State) :
  slotted s ->
  spawnWriteCollectionWorker pid_of allocations i s = Return s' ->
  slotted s'
  /\ forall c id, collectionToWriteWorkerId s' !! c = Some id ->
       id = next_id s
       \/ (collectionToWriteWorkerId s !! c = Some id
           /\ forall cs, allocations !! i = Some cs -> c ∉ cs).
Proof.
  intros Hs Hsp.
  apply spawnWriteCollectionWorker_Return in Hsp as (cs & Ha & Hpid & ->).
  split.
  - intros c id. simpl. rewrite route_after.
    destruct (decide (c ∈ cs)) as [Hin|Hin].
    + intros [= <-]. split; [lia|]. exists i, cs.
      by rewrite lookup_insert_eq.
    + intros Hc. destruct (Hs _ _ Hc) as (Hlt & j & cs' & Hj & Ha' & Hin').
      split; [lia|]. exists j, cs'. split_and!; try done.
      rewrite lookup_insert_ne; [done|].
      intros He. apply pid_of_inj in He. lia.
  - intros c id. simpl. rewrite route_after.
    destruct (decide (c ∈ cs)) as [Hin|Hin].
    + intros [= <-]. by left.
    + intros Hc. right. split; [done|]. intros cs'. rewrite Ha. by intros [= <-].
Qed.

(** A live write-by-record worker is not in [workers.writeCollection]. *)
Lemma writeRecord_not_slotted (s : State) (id : nat) (q : Proc) :
  sound s -> cluster_workers s !! id = Some q -> kind q = WriteRecord ->
  writeCollection s !! pid_of id = None.
Proof.
  intros Hsound Hq Hk.
  destruct (writeCollection s !! pid_of id) as [i|] eqn:Hi; [|done].
  destruct (table_sound _ _ _ Hsound _ _ Hi) as (id0 & He & _ & _ & Hk0).
  apply pid_of_inj in He as <-. specialize (Hk0 _ Hq). congruence.
Qed.

(** Two fresh write-by-record workers, entered as the pair. *)
Lemma spawnWriteRecordWorker_healthy (s s' : State) :
  sound s -> slotted s -> route_live s ->
  spawnWriteRecordWorker pid_of s = Return s' ->
  sound s' /\ slotted s' /\ route_live s' /\ paired s'.
Proof.
  intros Hsound Hslotted Hlive Hsp.
  apply spawnWriteRecordWorker_Return in Hsp as (Hpid & Hpid2 & ->).
  set (s1 := {| cluster_workers :=
                  <[next_id s := {| pid := pid_of (next_id s);
                                    kind := WriteRecord |}]>
                    (cluster_workers s);
                next_id := S (next_id s); repo := repo s;
                writeCollection := writeCollection s;
                writeRecord := writeRecord s;
                writeRecord2 := writeRecord2 s;
                collectionToWriteWorkerId := collectionToWriteWorkerId s;
                signalled := signalled s; delivered := delivered s |}).
  assert (Hsound1 : sound s1) by (by eapply (sound_fork WriteRecord s)).
  split_and!.
  - by eapply (sound_fork WriteRecord s1).
  - eapply (slotted_grow s _ None); [done | simpl; lia | done | done].
  - intros c id Hc. simpl in *.
    destruct (Hlive _ _ Hc) as [q Hq].
    destruct (live_fresh _ _ _ Hsound _ _ Hq) as (Hlt & _).
    rewrite !lookup_insert_ne by lia. eauto.
  - constructor; simpl.
    + rewrite lookup_insert_ne by lia. apply lookup_insert_eq.
    + apply lookup_insert_eq.
Qed.

(** One fresh repo worker. *)
Lemma spawnRepoWorker_healthy (s s' : State) :
  sound s -> slotted s -> route_live s ->
  spawnRepoWorker pid_of s = Return s' ->
  sound s' /\ slotted s' /\ route_live s'
  /\ (paired s -> paired s').
Proof.
  intros Hsound Hslotted Hlive Hsp.
  apply spawnRepoWorker_Return in Hsp as (Hpid & ->).
  split_and!.
  - by eapply (sound_fork Repo s).
  - eapply (slotted_grow s _ None); [done | simpl; lia | done | done].
  - intros c id Hc. simpl in *.
    destruct (Hlive _ _ Hc) as [q Hq].
    destruct (live_fresh _ _ _ Hsound _ _ Hq) as (Hlt & _).
    rewrite lookup_insert_ne by lia. eauto.
  - intros [Hfirst Hsecond].
    destruct (live_fresh _ _ _ Hsound _ _ Hfirst) as (Hlt1 & _).
    destruct (live_fresh _ _ _ Hsound _ _ Hsecond) as (Hlt2 & _).
    constructor; simpl; by rewrite lookup_insert_ne by lia.
Qed.

(** One fresh write-by-collection worker for slot [i]; the route targets
    of the other slots are assumed alive. *)
Lemma spawnWriteCollectionWorker_healthy (i : nat) (s s' : State) :
  sound s -> slotted s ->
  (forall c id cs, collectionToWriteWorkerId s !! c = Some id ->
                   allocations !! i = Some cs -> c ∉ cs ->
                   is_Some (cluster_workers s !! id)) ->
  spawnWriteCollectionWorker pid_of allocations i s = Return s' ->
  sound s' /\ slotted s' /\ route_live s'
  /\ (paired s -> paired s').
Proof.
  intros Hsound Hslotted Hlive Hsp.
  destruct (slotted_spawn _ _ _ Hslotted Hsp) as [Hslotted' Hroute'].
  pose proof Hsp as Hsp'.
  apply spawnWriteCollectionWorker_Return in Hsp' as (cs & Ha & Hpid & Hs').
  split_and!.
  - eapply (sound_fork (WriteCollection i) s); subst s'; simpl; eauto.
  - done.
  - intros c id Hc. destruct (Hroute' _ _ Hc) as [-> | [Hold Hnot]].
    + subst s'. simpl. rewrite lookup_insert_eq. eauto.
    + destruct (Hlive _ _ _ Hold Ha (Hnot _ Ha)) as [q Hq].
      destruct (live_fresh _ _ _ Hsound _ _ Hq) as (Hlt & _).
      subst s'. simpl. rewrite lookup_insert_ne by lia. eauto.
  - intros [Hfirst Hsecond].
    destruct (live_fresh _ _ _ Hsound _ _ Hfirst) as (Hlt1 & _).
    destruct (live_fresh _ _ _ Hsound _ _ Hsecond) as (Hlt2 & _).
    subst s'. constructor; simpl; by rewrite lookup_insert_ne by lia.
Qed.

(** The listener of "exit" keeps the bookkeeping sound, the route targets
    alive and the two write-by-record entries alive, whenever it returns. *)
Lemma worker_exit_healthy (id : nat) (s s' : State) :
  sound s -> slotted s -> route_live s -> paired s ->
  worker_exit pid_of allocations id s = Return s' ->
  sound s' /\ slotted s' /\ route_live s' /\ paired s'.
Proof.
  intros Hsound Hslotted Hlive Hpaired. unfold worker_exit.
  destruct (cluster_workers s !! id) as [q|] eqn:Hq;
    [|by intros [= <-]].
  destruct (live_fresh _ _ _ Hsound _ _ Hq) as (Hlt & Hpq & Hp0).
  set (s1 := {| cluster_workers := delete id (cluster_workers s) |}).
  assert (Hsound1 : sound s1) by (by eapply sound_delete).
  assert (Hslotted1 : slotted s1) by done.
  (* Route targets other than the worker that exited stay alive. *)
  assert (Hothers : forall c id', collectionToWriteWorkerId s !! c = Some id' ->
                      id' <> id -> is_Some (cluster_workers s1 !! id')).
  { intros c id' Hc Hne. simpl. rewrite lookup_delete_ne by done. eauto. }
  (* A route target has its process id in [workers.writeCollection]. *)
  assert (Htarget : forall c, collectionToWriteWorkerId s !! c = Some id ->
                      exists i cs, writeCollection s !! pid_of id = Some i
                        /\ allocations !! i = Some cs /\ c ∈ cs).
  { intros c Hc. by destruct (Hslotted _ _ Hc) as [_ ?]. }
  pose proof Hpaired as [Hfirst Hsecond].
  unfold on_exit. rewrite Hpq.
  destruct (Nat.eqb_spec (pid_of id) 0) as [|_]; [done|].
  change (writeCollection s1) with (writeCollection s).
  change (writeRecord s1) with (writeRecord s).
  change (writeRecord2 s1) with (writeRecord2 s).
  change (repo s1) with (repo s).
  destruct (writeCollection s !! pid_of id) as [i|] eqn:Hi.
  - (* a write-by-collection worker: one replacement, same slot *)
    intros Hsp.
    assert (Hkind : forall id' q', cluster_workers s !! id' = Some q' ->
                      kind q' = WriteRecord -> id' <> id).
    { intros id' q' Hq' Hk ->.
      rewrite (writeRecord_not_slotted s id q') in Hi; done. }
    destruct (spawnWriteCollectionWorker_healthy i s1 s') as (? & ? & ? & Hp);
      try done.
    + intros c id' cs Hc Ha Hnot. apply (Hothers c); [done|].
      intros ->. destruct (Htarget _ Hc) as (j & cs' & Hj & Ha' & Hin).
      congruence.
    + split_and!; try done. apply Hp. constructor; simpl.
      * rewrite lookup_delete_ne; [done|]. intros He.
        by apply (Hkind _ _ Hfirst eq_refl).
      * rewrite lookup_delete_ne; [done|]. intros He.
        by apply (Hkind _ _ Hsecond eq_refl).
  - (* no route target is the worker that exited *)
    assert (Hlive1 : route_live s1).
    { intros c id' Hc. apply (Hothers c); [done|].
      intros ->. destruct (Htarget _ Hc) as (j & ? & Hj & _). congruence. }
    assert (Hkill : forall k, sound (kill k s1) /\ slotted (kill k s1)
                              /\ route_live (kill k s1)).
    { intros k. unfold kill. destruct (cluster_workers s1 !! k); [|done].
      split_and!; [by eapply (sound_same s1) | exact Hslotted1
                  | exact Hlive1]. }
    destruct (pid_of id =? (writeRecord s).1)%nat eqn:E1.
    { intros Hsp. destruct (Hkill (writeRecord s).2) as (? & ? & ?).
      by eapply spawnWriteRecordWorker_healthy. }
    destruct (pid_of id =? (writeRecord2 s).1)%nat eqn:E2.
    { intros Hsp. destruct (Hkill (writeRecord2 s).2) as (? & ? & ?).
      by eapply spawnWriteRecordWorker_healthy. }
    destruct (decide (pid_of id ∈ repo s)) as [Hin|Hnin]; [|done].
    intros Hsp.
    destruct (spawnRepoWorker_healthy s1 s') as (? & ? & ? & Hp); try done.
    split_and!; try done. apply Hp.
    destruct (live_fresh _ _ _ Hsound _ _ Hfirst) as (_ & Hp1 & _).
    destruct (live_fresh _ _ _ Hsound _ _ Hsecond) as (_ & Hp2 & _).
    simpl in Hp1, Hp2.
    apply Nat.eqb_neq in E1, E2.
    constructor; simpl; (rewrite lookup_delete_ne; [done|]); intros He;
      rewrite He in *; congruence.
Qed.

(** The listener of "message" leaves the bookkeeping as it is. *)
Lemma on_message_book random message (s s' : State) :
  on_message random message s = Return s' ->
  cluster_workers s' = cluster_workers s /\ next_id s' = next_id s
  /\ repo s' = repo s /\ writeCollection s' = writeCollection s
  /\ writeRecord s' = writeRecord s /\ writeRecord2 s' = writeRecord2 s
  /\ collectionToWriteWorkerId s' = collectionToWriteWorkerId s.
Proof.
  unfold on_message.
  destruct (invalid message); [done|].
  destruct message as [m|]; [|done].
  destruct (length _ =? 0)%nat; [by intros [= <-]|].
  destruct (collectionToWriteWorkerId s !! _) as [wid|]; [|by intros [= <-]].
  destruct (cluster_workers s !! pick random s); [|done].
  destruct (cluster_workers s !! wid); [|done].
  by intros [= <-].
Qed.

Lemma on_message_healthy random message (s s' : State) :
  healthy pid_of allocations s ->
  on_message random message s = Return s' ->
  healthy pid_of allocations s'.
Proof.
  intros (Hsound & Hslotted & Hlive & [Hfirst Hsecond]) Hm.
  apply on_message_book in Hm as (Hc & Hn & Hr & Ht & Hw & Hw2 & Hroute).
  split_and!.
  - by eapply sound_same.
  - intros c id. rewrite Hroute, Hn, Ht. apply Hslotted.
  - intros c id. rewrite Hroute, Hc. apply Hlive.
  - constructor; by rewrite Hc, ?Hw, ?Hw2.
Qed.

Lemma times_spawnRepoWorker_healthy (k : nat) (s s' : State) :
  healthy pid_of allocations s ->
  times k (spawnRepoWorker pid_of) s = Return s' ->
  healthy pid_of allocations s'.
Proof.
  revert s. induction k as [|k IH]; intros s Hs; simpl.
  - by intros [= <-].
  - unfold mbind, result_bind.
    destruct (spawnRepoWorker pid_of s) as [s1|] eqn:Hsp; [|done].
    apply IH. destruct Hs as (? & ? & ? & ?).
    destruct (spawnRepoWorker_healthy s s1) as (? & ? & ? & Hp); try done.
    split_and!; try done. by apply Hp.
Qed.

(** Start-up leaves the primary with sound bookkeeping, live route targets
    and a live pair of write-by-record workers. *)
Lemma startup_healthy (numCPUs : nat) (s : State) :
  startup pid_of allocations numCPUs = Return s ->
  healthy pid_of allocations s.
Proof.
  unfold startup, mbind, result_bind.
  assert (H0 : sound initial /\ slotted initial /\ route_live initial).
  { split_and!; [constructor; simpl; intros | intros c id Hc; simpl in Hc
                | intros c id Hc; simpl in Hc]; simplify_map_eq. }
  destruct H0 as (Hs0 & Hl0 & Hr0).
  assert (Hstep : forall i s s',
            sound s /\ slotted s /\ route_live s ->
            spawnWriteCollectionWorker pid_of allocations i s = Return s' ->
            sound s' /\ slotted s' /\ route_live s').
  { intros i s0 s0' (Hs & Hl & Hr) Hsp.
    destruct (spawnWriteCollectionWorker_healthy i s0 s0')
      as (? & ? & ? & _); try done.
    intros c id cs Hc _ _. by apply Hr in Hc. }
  destruct (spawnWriteCollectionWorker _ _ 0 initial) as [s1|] eqn:H1;
    [|done].
  pose proof (Hstep _ _ _ (conj Hs0 (conj Hl0 Hr0)) H1) as Hh1.
  destruct (spawnWriteCollectionWorker _ _ 1 s1) as [s2|] eqn:H2; [|done].
  pose proof (Hstep _ _ _ Hh1 H2) as Hh2.
  destruct (spawnWriteCollectionWorker _ _ 2 s2) as [s3|] eqn:H3; [|done].
  destruct (Hstep _ _ _ Hh2 H3) as (Hs3 & Hl3 & Hr3).
  apply spawnWriteCollectionWorker_Return in H1 as (? & _ & _ & ->).
  apply spawnWriteCollectionWorker_Return in H2 as (? & _ & _ & ->).
  apply spawnWriteCollectionWorker_Return in H3 as (? & _ & _ & ->).
  cbn [writeRecord fst Nat.eqb initial].
  destruct (spawnWriteRecordWorker _ _) as [s4|] eqn:H4; [|done].
  apply times_spawnRepoWorker_healthy.
  by apply spawnWriteRecordWorker_healthy in H4.
Qed.

(** In every state of a run the bookkeeping is healthy. *)
Lemma reachable_healthy (numCPUs : nat) (s : State) :
  reachable pid_of allocations numCPUs s -> healthy pid_of allocations s.
Proof.
  induction 1 as [s Hstart | s e s' _ IH Hstep].
  - by eapply startup_healthy.
  - destruct e as [id | random message]; simpl in Hstep.
    + destruct IH as (? & ? & ? & ?). by eapply worker_exit_healthy.
    + by eapply on_message_healthy.
Qed.

(** So in every state of a run each worker a batch can be sent to is
    alive. *)
Lemma reachable_routable (numCPUs : nat) (s : State) :
  reachable pid_of allocations numCPUs s -> Design.routable s.
Proof.
  intros Hr. apply reachable_healthy in Hr as (_ & _ & Hlive & [Hf Hs]).
  split_and!; [exact Hlive | by rewrite Hf | by rewrite Hs].
Qed.

(** Replacing a live worker by a fresh one of the same role leaves the
    number of live workers of every role as it was. *)
Lemma live_size_replace (r : Role) (m : gmap nat Proc) (id n : nat)
    (q new : Proc) :
  m !! id = Some q -> m !! n = None ->
  role (kind new) = role (kind q) ->
  size (filter (fun ip : nat * Proc => role (kind ip.2) = r)
          (<[n := new]> (delete id m)))
  = size (filter (fun ip : nat * Proc => role (kind ip.2) = r) m).
Proof.
  intros Hq Hn Hrole.
  assert (Hne : id <> n) by congruence.
  rewrite map_filter_insert. simpl. case_decide as Hr.
  - rewrite map_size_insert_None.
    2:{ apply map_lookup_filter_None. left.
        by rewrite lookup_delete_ne. }
    rewrite map_filter_delete.
    assert (Hin : filter (fun ip : nat * Proc => role (kind ip.2) = r) m
                    !! id = Some q).
    { apply map_lookup_filter_Some. split; [done|]. simpl. congruence. }
    rewrite <- (insert_id _ _ _ Hin) at 2.
    rewrite <- insert_delete_eq.
    rewrite map_size_insert_None; [done|]. apply lookup_delete_eq.
  - rewrite (delete_id (delete id m) n) by (by rewrite lookup_delete_ne).
    apply (f_equal size). apply map_filter_delete_not.
    intros y Hy. simpl. congruence.
Qed.

(** The part of supervision that holds: when a live write-by-collection
    worker exits, the listener forks one worker of the same slot, all the
    collections of the slot are routed to it, and the number of live
    workers of every role is as before the exit. *)
Lemma exit_writeCollection_replaced (id : nat) (q : Proc) (i : nat)
    (s : State) :
  healthy pid_of allocations s ->
  cluster_workers s !! id = Some q -> kind q = WriteCollection i ->
  pid_of (next_id s) <> 0%nat ->
  exists s',
    worker_exit pid_of allocations id s = Return s'
    /\ cluster_workers s'
       = <[next_id s := {| pid := pid_of (next_id s);
                           kind := WriteCollection i |}]>
           (delete id (cluster_workers s))
    /\ (forall r, size (live r s') = size (live r s))
    /\ (forall cs c, allocations !! i = Some cs -> c ∈ cs ->
          collectionToWriteWorkerId s' !! c = Some (next_id s)).
Proof.
  intros (Hsound & _ & _ & _) Hq Hk Hpid.
  destruct (live_fresh _ _ _ Hsound _ _ Hq) as (Hlt & Hpq & Hp0).
  pose proof (slot_tracked _ _ _ Hsound _ _ _ Hq Hk) as Hi.
  destruct (table_sound _ _ _ Hsound _ _ Hi) as (_ & _ & _ & [cs Ha] & _).
  unfold worker_exit, on_exit. rewrite Hq, Hpq. simpl.
  apply Nat.eqb_neq in Hp0 as Hp0'. rewrite Hp0', Hi.
  unfold spawnWriteCollectionWorker, fork. simpl.
  apply Nat.eqb_neq in Hpid as Hpid'. rewrite Hpid', Ha.
  eexists. split; [reflexivity|]. simpl. split_and!; [done | |].
  - intros r. unfold live. simpl.
    apply (live_size_replace r _ id _ q); [done | | by rewrite Hk].
    destruct (cluster_workers s !! next_id s) as [q'|] eqn:Hq'; [|done].
    destruct (live_fresh _ _ _ Hsound _ _ Hq') as (? & _). lia.
  - intros cs' c Ha' Hin. rewrite route_after.
    assert (cs' = cs) as -> by congruence. by rewrite decide_True.
Qed.

(** Likewise for a live repo worker. *)
Lemma exit_repo_replaced (id : nat) (q : Proc) (s : State) :
  healthy pid_of allocations s ->
  cluster_workers s !! id = Some q -> kind q = Repo ->
  pid_of (next_id s) <> 0%nat ->
  exists s',
    worker_exit pid_of allocations id s = Return s'
    /\ cluster_workers s'
       = <[next_id s := {| pid := pid_of (next_id s); kind := Repo |}]>
           (delete id (cluster_workers s))
    /\ (forall r, size (live r s') = size (live r s)).
Proof.
  intros (Hsound & _ & _ & [Hfirst Hsecond]) Hq Hk Hpid.
  destruct (live_fresh _ _ _ Hsound _ _ Hq) as (Hlt & Hpq & Hp0).
  pose proof (repo_tracked _ _ _ Hsound _ _ Hq Hk) as Hin.
  assert (Hi : writeCollection s !! pid_of id = None).
  { destruct (writeCollection s !! pid_of id) as [i|] eqn:Hi; [|done].
    destruct (table_sound _ _ _ Hsound _ _ Hi) as (id0 & He & _ & _ & Hk0).
    apply pid_of_inj in He as <-. specialize (Hk0 _ Hq). congruence. }
  assert (Hother : forall id' p', cluster_workers s !! id'
                     = Some {| pid := p'; kind := WriteRecord |} ->
                   pid_of id <> p').
  { intros id' p' Hq' He.
    destruct (live_fresh _ _ _ Hsound _ _ Hq') as (_ & Hp' & _).
    simpl in Hp'. rewrite Hp' in He. apply pid_of_inj in He as ->.
    rewrite Hq in Hq'. injection Hq' as ->. done. }
  unfold worker_exit, on_exit. rewrite Hq, Hpq. simpl.
  apply Nat.eqb_neq in Hp0 as Hp0'. rewrite Hp0', Hi.
  pose proof (Hother _ _ Hfirst) as H1. apply Nat.eqb_neq in H1. rewrite H1.
  pose proof (Hother _ _ Hsecond) as H2. apply Nat.eqb_neq in H2. rewrite H2.
  rewrite decide_True by done.
  unfold spawnRepoWorker, fork. simpl.
  apply Nat.eqb_neq in Hpid as Hpid'. rewrite Hpid'.
  eexists. split; [reflexivity|]. simpl. split; [done|].
  intros r. unfold live. simpl.
  apply (live_size_replace r _ id _ q); [done | | by rewrite Hk].
  destruct (cluster_workers s !! next_id s) as [q'|] eqn:Hq'; [|done].
  destruct (live_fresh _ _ _ Hsound _ _ Hq') as (? & _). lia.
Qed.

(** The part that does not hold: when the first write-by-record worker
    exits, the listener forks two workers, so one more write-by-record
    worker is alive than before the exit. *)
Lemma exit_writeRecord_grows (s : State) :
  healthy pid_of allocations s ->
  pid_of (next_id s) <> 0%nat -> pid_of (S (next_id s)) <> 0%nat ->
  exists s',
    worker_exit pid_of allocations (writeRecord s).2 s = Return s'
    /\ size (live WriteRecordRole s') = S (size (live WriteRecordRole s)).
Proof.
  intros (Hsound & _ & _ & [Hfirst _]) Hpid Hpid2.
  destruct (live_fresh _ _ _ Hsound _ _ Hfirst) as (Hlt & Hpq & Hp0).
  simpl in Hpq.
  pose proof (writeRecord_not_slotted s _ _ Hsound Hfirst eq_refl) as Hi.
  assert (Hfree : forall k, (next_id s <= k)%nat ->
                            cluster_workers s !! k = None).
  { intros k Hk.
    destruct (cluster_workers s !! k) as [q'|] eqn:Hq'; [|done].
    destruct (live_fresh _ _ _ Hsound _ _ Hq') as (? & _). lia. }
  unfold worker_exit, on_exit. rewrite Hfirst. simpl.
  apply Nat.eqb_neq in Hp0 as Hp0'. rewrite Hpq, Hp0', Hi.
  rewrite <- Hpq, Nat.eqb_refl.
  unfold kill. simpl. rewrite lookup_delete_eq.
  unfold spawnWriteRecordWorker, fork. simpl.
  apply Nat.eqb_neq in Hpid as Hpid'. rewrite Hpid'. simpl.
  apply Nat.eqb_neq in Hpid2 as Hpid2'. rewrite Hpid2'.
  eexists. split; [reflexivity|]. unfold live. simpl.
  rewrite map_filter_insert_True by done.
  rewrite map_size_insert_None.
  - f_equal.
    apply (live_size_replace WriteRecordRole _ _ _
             {| pid := (writeRecord s).1; kind := WriteRecord |});
      [done | by apply Hfree | done].
  - apply map_lookup_filter_None. left.
    rewrite lookup_insert_ne by lia.
    rewrite lookup_delete_ne by lia. apply Hfree. lia.
Qed.

End SupervisorInvariants.
(* ===================================================================== *)
(** * Properties of the supervisor                                        *)
(* ===================================================================== *)

Section SupervisorClaims.
Import Js Supervisor Design Scenario.

(** C4 at a failing input: the primary after start-up, and the exit of
    worker 4, the first write-by-record worker. The listener forks two
    write-by-record workers; worker 5, the sibling of the one that exited,
    stays alive and is no longer in the bookkeeping, so three
    write-by-record workers are alive where two are wanted, and the later
    exit of worker 5 makes the listener throw. *)
Theorem C4_writeRecord_exit_leaves_three :
  exists s',
    worker_exit pid_of allocations 4 started = Return s'
    /\ size (live WriteRecordRole started) = 2%nat
    /\ size (live WriteRecordRole s') = 3%nat
    /\ cluster_workers s' !! 5%nat
       = Some {| pid := 1005; kind := WriteRecord |}
    /\ tracked 1005 s' = false
    /\ worker_exit pid_of allocations 5 s' = Throw "Unknown worker kind".
Proof.
  eexists. split; [vm_compute; reflexivity|].
  split_and!; vm_compute; reflexivity.
Qed.

Lemma invalid_spec message : invalid message = true <-> malformed message.
Proof.
  destruct message as [[ty coll commits]|]; simpl; [|done].
  rewrite !orb_true_iff, negb_true_iff, bool_decide_eq_false,
    bool_decide_eq_true.
  destruct coll as [c|]; simpl.
  - rewrite String.eqb_eq. split.
    + intros [[Hty | ->] | Hcm]; [by left | by right; right; left
                                 | by right; right; right].
    + intros [Hty | [Hc | [[= ->] | Hcm]]];
        [by left; left | done | by left; right | by right].
  - split; [intros _; by right; left | intros _; by left; right].
Qed.



Lemma pid_of_inj (a b : nat) : pid_of a = pid_of b -> a = b.
Proof. unfold pid_of. lia. Qed.

Lemma started_reachable : reachable pid_of allocations 2 started.
Proof. apply reach_startup. vm_compute. reflexivity. Qed.

Lemma started_routable : routable started.
Proof.
  exact (reachable_routable pid_of allocations pid_of_inj 2 started
           started_reachable).
Qed.



End SupervisorClaims.

(* ===================================================================== *)
(** * More properties of the fetch client and the scheduler               *)
(* ===================================================================== *)

Section FetchExtras.
Import Js Fetch FetchSpec Design Scenario.

Lemma backoff_delay_pos (attempt : nat) : 0 < backoff_delay attempt.
Proof.
  unfold backoff_delay.
  do 7 (destruct attempt as [|attempt]; [simpl; lia|]). simpl. lia.
Qed.

Lemma processRatelimitHeaders_pos (h : HeadersObject) (now t : Z) :
  processRatelimitHeaders h now = Some t -> 0 < t.
Proof.
  unfold processRatelimitHeaders.
  destruct (falsy _ || falsy _); [done|].
  destruct (match parseInt _ with Some n => n <=? 1 | None => true end);
    [|done].
  destruct (parseInt (default "" (h !! "ratelimit-reset"))) as [r|]; [|done].
  destruct (Z.ltb_spec 0 (r * 1000 - now + 1000)); [|done].
  intros [= <-]. lia.
Qed.

(** X1: whatever the network answers, every duration a request sleeps is
    strictly positive, and the request sleeps at most once per call of the
    network. *)
Theorem request_sleeps_positive (fuel : nat) (net : Net) (attempt : nat)
    (w : World) (out : Outcome) (w' : World) :
  request fuel net attempt w = Some (out, w') ->
  exists naps,
    slept w' = slept w ++ naps
    /\ Forall (fun t => 0 < t) naps
    /\ (calls w + length naps <= calls w')%nat.
Proof.
  revert attempt w out w'.
  induction fuel as [|fuel IH]; intros attempt w out w'; [done|].
  rewrite request_step.
  assert (Hrl : forall h (w1 : World),
            exists naps, slept (awaitRatelimit h w1) = slept w1 ++ naps
              /\ Forall (fun t => 0 < t) naps /\ (length naps <= 1)%nat).
  { intros h w1. rewrite slept_awaitRatelimit.
    destruct (processRatelimitHeaders h (clock w1)) as [t|] eqn:Ht.
    - exists [t]. split_and!; [done | | done].
      constructor; [by eapply processRatelimitHeaders_pos | done].
    - exists []. split_and!; [done | done | simpl; lia]. }
  assert (Hnone : exists naps : list Z,
            slept (call net w).2 = slept w ++ naps
            /\ Forall (fun t => 0 < t) naps
            /\ (calls w + length naps <= calls (call net w).2)%nat).
  { exists []. simpl. rewrite app_nil_r. split_and!; [done | done | lia]. }
  destruct (outcome (net (calls w))) as [h d|err] eqn:Hout.
  - intros [= <- <-].
    destruct (Hrl h (call net w).2) as (naps & Hs & Hpos & Hlen).
    exists naps. rewrite calls_awaitRatelimit. simpl in *.
    split_and!; [done | done | lia].
  - destruct (6 <? attempt)%nat; [by intros [= <- <-]|].
    destruct err as [status name h| |]; [| by intros [= <- <-] |].
    + destruct (status =? 429); [|by intros [= <- <-]].
      intros Hr. apply IH in Hr as (naps & Hs & Hpos & Hlen).
      destruct (Hrl h (call net w).2) as (naps0 & Hs0 & Hpos0 & Hlen0).
      exists (naps0 ++ naps). rewrite Hs, Hs0.
      rewrite calls_awaitRatelimit in Hlen.
      simpl in *. rewrite app_assoc, length_app.
      split_and!; [done | by apply Forall_app | lia].
    + intros Hr. apply IH in Hr as (naps & Hs & Hpos & Hlen).
      exists (backoff_delay attempt :: naps). rewrite Hs.
      simpl in *. rewrite <- app_assoc. simpl.
      split_and!; [done | | lia].
      constructor; [apply backoff_delay_pos | done].
Qed.

Lemma request_sleeps_positive_witness :
  exists naps : list Z,
    [101000] = slept w0 ++ naps
    /\ Forall (fun t => 0 < t) naps
    /\ (calls w0 + length naps <= 2)%nat.
Proof.
  exact (request_sleeps_positive 8 net_429_then_ok 0 w0
           (Response ∅ [x01; x02]%byte)
           {| clock := 101000; calls := 2; slept := [101000] |} eq_refl).
Defined.

(** X2: a request calls the network again only after an answer that is a
    429 or a failure below the protocol other than a [TypeError]: every
    call but the last of a request got such an answer. In particular
    nothing is called after a success, a [TypeError] or a protocol error
    other than 429. *)
Theorem request_retries_only_retryable (fuel : nat) (net : Net)
    (attempt : nat) (w : World) (out : Outcome) (w' : World) :
  request fuel net attempt w = Some (out, w') ->
  forall k, (calls w <= k)%nat -> (S k < calls w')%nat ->
    retryable (outcome (net k)).
Proof.
  revert attempt w out w'.
  induction fuel as [|fuel IH]; intros attempt w out w'; [done|].
  rewrite request_step.
  assert (Hlast : forall o w1, calls w1 = S (calls w) ->
            Some (o, w1) = Some (out, w') ->
            forall k, (calls w <= k)%nat -> (S k < calls w')%nat ->
              retryable (outcome (net k))).
  { intros o w1 Hc [= <- <-] k Hk Hk'. lia. }
  assert (Hmore : forall w1, calls w1 = S (calls w) ->
            retryable (outcome (net (calls w))) ->
            request fuel net (S attempt) w1 = Some (out, w') ->
            forall k, (calls w <= k)%nat -> (S k < calls w')%nat ->
              retryable (outcome (net k))).
  { intros w1 Hc Hre Hr k Hk Hk'.
    destruct (decide (k = calls w)) as [->|Hne]; [done|].
    eapply IH; [exact Hr | lia | done]. }
  destruct (outcome (net (calls w))) as [h d|err] eqn:Hout.
  - apply Hlast. by rewrite calls_awaitRatelimit.
  - destruct (6 <? attempt)%nat; [by apply Hlast|].
    destruct err as [status name h| |]; [| by apply Hlast |].
    + destruct (Z.eqb_spec status 429) as [->|Hne]; [|by apply Hlast].
      apply Hmore; [by rewrite calls_awaitRatelimit | done].
    + by apply Hmore.
Qed.

Lemma request_retries_only_retryable_witness :
  retryable (outcome (net_429_then_ok 0%nat)).
Proof.
  apply (request_retries_only_retryable 8 net_429_then_ok 0 w0
           (Response ∅ [x01; x02]%byte)
           {| clock := 101000; calls := 2; slept := [101000] |} eq_refl);
    simpl; lia.
Defined.

(** X3: while the numbers involved stay in the range where the program's
    arithmetic is exact, [processRatelimitHeaders] asks for a wait exactly
    when both headers have a non-empty value, the remaining count is not a
    number or is at most 1, the reset header parses, and
    reset * 1000 - now + 1000 is positive; the wait is that number. So a
    remaining count above 1, an unparsable reset or a reset time already
    past never makes the client wait. *)
Theorem ratelimit_wait_iff (h : HeadersObject) (now t : Z) :
  in_exact_range h now ->
  processRatelimitHeaders h now = Some t
  <-> exists rem rst r,
        h !! "ratelimit-remaining" = Some rem /\ rem <> ""
        /\ h !! "ratelimit-reset" = Some rst
        /\ parseInt rst = Some r
        /\ match parseInt rem with Some n => n <= 1 | None => True end
        /\ t = wait r now /\ 0 < t.
Proof.
  intros _. split.
  - intros Ht. pose proof (processRatelimitHeaders_pos _ _ _ Ht) as Hpos.
    revert Ht. unfold processRatelimitHeaders.
    destruct (h !! "ratelimit-remaining") as [rem|] eqn:Hrem; [|done].
    destruct (h !! "ratelimit-reset") as [rst|] eqn:Hrst;
      [|simpl; by rewrite orb_true_r].
    simpl.
    destruct (String.eqb_spec rem "") as [|Hne]; [done|].
    destruct (String.eqb_spec rst "") as [|Hne']; [done|]. simpl.
    destruct (parseInt rem) as [n|] eqn:Hn.
    + destruct (Z.leb_spec n 1) as [Hle|]; [|done].
      destruct (parseInt rst) as [r|] eqn:Hr; [|done].
      destruct (0 <? r * 1000 - now + 1000); [|done].
      intros [= <-]. exists rem, rst, r. by rewrite Hn.
    + destruct (parseInt rst) as [r|] eqn:Hr; [|done].
      destruct (0 <? r * 1000 - now + 1000); [|done].
      intros [= <-]. exists rem, rst, r. by rewrite Hn.
  - intros (rem & rst & r & Hrem & Hne & Hrst & Hr & Hn & -> & Hpos).
    rewrite (processRatelimitHeaders_exhausted h rem rst now) by done.
    rewrite Hr. by destruct (Z.ltb_spec 0 (wait r now)); [|lia].
Qed.

Lemma ratelimit_wait_iff_witness :
  processRatelimitHeaders exhausted 0 = Some 101000
  <-> exists rem rst r,
        exhausted !! "ratelimit-remaining" = Some rem /\ rem <> ""
        /\ exhausted !! "ratelimit-reset" = Some rst
        /\ parseInt rst = Some r
        /\ match parseInt rem with Some n => n <= 1 | None => True end
        /\ 101000 = wait r 0 /\ 0 < 101000.
Proof.
  apply (ratelimit_wait_iff exhausted 0 101000).
  intros r Hr. vm_compute in Hr. injection Hr as <-. vm_compute. reflexivity.
Defined.

(** X5: when the fetch succeeds, [queueRepo] leaves the Seen-Set as it is;
    with a non-empty body it writes the body under the account's path and
    the account has a job afterwards (one more job unless it had one);
    with an empty body it writes nothing and queues nothing. *)
Theorem queueRepo_success (dir : string) (net : Net) (did : string)
    (s : Sched) (h : HeadersObject) (repo : list byte) (w' : World) :
  get net (world s) = Some (Response h repo, w') ->
  exists s',
    queueRepo dir net did s = Some s'
    /\ world s' = w' /\ seen s' = seen s
    /\ (repo = [] -> files s' = files s /\ jobs s' = jobs s)
    /\ (repo <> [] ->
        files s' = <[path_join dir did := repo]> (files s)
        /\ did ∈ jobs s'
        /\ (did ∈ jobs s -> jobs s' = jobs s)
        /\ (did ∉ jobs s -> jobs s' = jobs s ++ [did])).
Proof.
  intros Hget. unfold queueRepo. rewrite Hget.
  destruct repo as [|b repo]; simpl.
  - eexists. split_and!; try done.
  - eexists. split_and!; try done. intros _. simpl. unfold createJob.
    split_and!; [done | | |].
    + destruct (decide (did ∈ jobs s)) as [Hin|Hnin]; [done|].
      apply elem_of_app. right. by apply list_elem_of_singleton.
    + intros Hin. by rewrite decide_True.
    + intros Hnin. by rewrite decide_False.
Qed.

Lemma queueRepo_success_witness :
  exists s',
    queueRepo "/tmp/repos" net_429_then_ok "did:plc:abc" sched0 = Some s'
    /\ seen s' = ∅ /\ "did:plc:abc" ∈ jobs s'.
Proof.
  destruct (queueRepo_success "/tmp/repos" net_429_then_ok "did:plc:abc"
              sched0 ∅ [x01; x02]%byte
              {| clock := 101000; calls := 2; slept := [101000] |} eq_refl)
    as (s' & Hq & _ & Hseen & _ & Hfull).
  exists s'. split_and!; [exact Hq | exact Hseen |].
  exact (proj1 (proj2 (Hfull ltac:(discriminate)))).
Defined.

(** X6: [queueRepo] always returns, and touches nothing but its own
    account: the Seen-Set only grows, by at most this account; the queue
    keeps its jobs in place, gains at most a job for this account and stays
    free of duplicates; no file other than this account's snapshot is
    written. *)
Theorem queueRepo_touches_own_account (dir : string) (net : Net)
    (did : string) (s : Sched) :
  exists s',
    queueRepo dir net did s = Some s'
    /\ seen s ⊆ seen s' /\ seen s' ⊆ {[did]} ∪ seen s
    /\ (jobs s' = jobs s \/ ((did ∉ jobs s) /\ jobs s' = jobs s ++ [did]))
    /\ (NoDup (jobs s) -> NoDup (jobs s'))
    /\ (forall p, p <> path_join dir did -> files s' !! p = files s !! p).
Proof.
  unfold queueRepo.
  destruct (request_total 8 net 0 (world s)) as [[out w'] Hr]; [lia | lia |].
  unfold get. rewrite Hr.
  assert (Hsub : seen s ⊆ {[did]} ∪ seen s) by apply union_subseteq_r.
  assert (Hjobs : jobs s = jobs s
                  \/ ((did ∉ jobs s) /\ jobs s = jobs s ++ [did])) by (by left).
  destruct out as [h repo|err].
  - destruct (0 <? length repo)%nat.
    + eexists. split; [reflexivity|]. simpl. unfold createJob.
      split_and!; [reflexivity | exact Hsub | | |].
      * destruct (decide (did ∈ jobs s)); [by left | by right].
      * intros Hnd. destruct (decide (did ∈ jobs s)) as [|Hnin]; [done|].
        apply NoDup_app. split_and!; [done | | apply NoDup_singleton].
        intros x Hx Hx'. apply list_elem_of_singleton in Hx'. by subst.
      * intros p Hp. by rewrite lookup_insert_ne.
    + eexists. split; [reflexivity|]. simpl.
      split_and!; [reflexivity | exact Hsub | exact Hjobs | tauto | tauto].
  - destruct err as [status kind hd| |].
    + eexists. split; [reflexivity|]. simpl.
      split_and!; [reflexivity | exact Hsub | exact Hjobs | tauto | tauto].
    + eexists. split; [reflexivity|]. simpl.
      split_and!; [reflexivity | exact Hsub | exact Hjobs | tauto | tauto].
    + eexists. split; [reflexivity|]. simpl.
      split_and!; [reflexivity | exact Hsub | exact Hjobs | tauto | tauto].
Qed.

End FetchExtras.

Section SchedulerExtras.
Import Scheduler.

Lemma append_cons (c : ascii) (a b : string) :
  String c a +:+ b = String c (a +:+ b).
Proof. reflexivity. Qed.

Lemma append_empty (b : string) : "" +:+ b = b.
Proof. reflexivity. Qed.

Lemma prefix_append (n s : string) :
  String.prefix n s = true <-> exists b, s = n +:+ b.
Proof.
  revert s. induction n as [|c n IH]; intros s.
  - destruct s; simpl; (split; [intros _; by eexists | done]).
  - destruct s as [|c' s]; simpl.
    + split; [done | intros [b Hb]; by rewrite append_cons in Hb].
    + destruct (Ascii.ascii_dec c c') as [->|Hne].
      * rewrite IH. split; intros [b Hb]; exists b;
          rewrite append_cons in *; congruence.
      * split; [done | intros [b Hb]; rewrite append_cons in Hb; congruence].
Qed.

(** [includes] is the test for a substring. *)
Lemma includes_substring (s n : string) :
  includes s n = true <-> exists a b, s = a +:+ n +:+ b.
Proof.
  induction s as [|c s IH]; cbn [includes].
  - rewrite orb_false_r, prefix_append. split.
    + intros [b Hb]. by exists "", b.
    + intros (a & b & Hab). destruct a as [|c a].
      * by exists b.
      * by rewrite append_cons in Hab.
  - rewrite orb_true_iff, prefix_append, IH. split.
    + intros [[b Hb] | (a & b & Hab)].
      * by exists "", b.
      * exists (String c a), b. by rewrite append_cons, Hab.
    + intros (a & b & Hab). destruct a as [|c' a].
      * left. by exists b.
      * right. exists a, b. rewrite append_cons in Hab. congruence.
Qed.

(** X7: the loop of [main] schedules a fetch for an entry of the account
    list exactly when the account is not in the copy of the Seen-Set read
    at the start and the host name does not contain [blueski.social]; so an
    account already seen, or hosted there, is never fetched. *)
Theorem main_loop_schedules (repos : list (string * string))
    (seenDids : gset string) (pds did : string) :
  (pds, did) ∈ main_loop repos seenDids
  <-> (did, pds) ∈ repos
      /\ (did ∉ seenDids)
      /\ ~ exists a b, pds = a +:+ "blueski.social" +:+ b.
Proof.
  induction repos as [|[d p] rest IH]; simpl.
  - split; [intros H | intros [H _]]; by apply elem_of_nil in H.
  - rewrite elem_of_cons.
    destruct (includes p "blueski.social") eqn:Hinc.
    + rewrite IH. split.
      * intros (Hin & Hns & Hnb). split_and!; [by right | done | done].
      * intros ([Heq | Hin] & Hns & Hnb); [|done].
        injection Heq as -> ->. exfalso. apply Hnb.
        by apply includes_substring.
    + assert (Hnb : ~ exists a b, p = a +:+ "blueski.social" +:+ b).
      { rewrite <- includes_substring. congruence. }
      destruct (decide (d ∈ seenDids)) as [Hs|Hs].
      * rewrite IH. split.
        -- intros (Hin & Hns & Hnb'). split_and!; [by right | done | done].
        -- intros ([Heq | Hin] & Hns & Hnb'); [|done].
           injection Heq as -> ->. done.
      * rewrite elem_of_cons, IH. split.
        -- intros [Heq | (Hin & Hns & Hnb')].
           ++ injection Heq as -> ->. split_and!; [by left | done | done].
           ++ split_and!; [by right | done | done].
        -- intros ([Heq | Hin] & Hns & Hnb').
           ++ injection Heq as -> ->. by left.
           ++ by right.
Qed.

(** X8: the loop keeps the order and the multiplicity of the account list:
    what it schedules is the list of the entries it does not skip. *)
Theorem main_loop_keeps_order (repos1 repos2 : list (string * string))
    (seenDids : gset string) :
  main_loop (repos1 ++ repos2) seenDids
  = main_loop repos1 seenDids ++ main_loop repos2 seenDids.
Proof.
  induction repos1 as [|[d p] rest IH]; simpl; [done|].
  destruct (includes p "blueski.social"); [done|].
  destruct (decide (d ∈ seenDids)); [done|]. by rewrite IH.
Qed.

End SchedulerExtras.

(* ===================================================================== *)
(** * More properties of the repo-decode worker                           *)
(* ===================================================================== *)

Section RepoWorkerExtras.
Import Js RepoWorker BufferSpec Scenario.

(** Reading a collection after a [push]. *)
Lemma records_push (c coll : string) (d : CommitData) (buf : Buffer) :
  records c (push coll d buf)
  = if String.eqb coll c then records c buf ++ [d] else records c buf.
Proof.
  induction buf as [|[k ds] rest IH]; simpl.
  - by destruct (String.eqb coll c).
  - destruct (String.eqb_spec k coll) as [->|Hne]; simpl.
    + by destruct (String.eqb_spec coll c).
    + destruct (String.eqb_spec k c) as [->|Hne'].
      * destruct (String.eqb_spec coll c); [congruence | done].
      * apply IH.
Qed.

Lemma keys_push (coll : string) (d : CommitData) (buf : Buffer) :
  (push coll d buf).*1 = if decide (coll ∈ buf.*1) then buf.*1
                         else buf.*1 ++ [coll].
Proof.
  induction buf as [|[k ds] rest IH].
  - destruct (decide (coll ∈ ([] : Buffer).*1)) as [Hin|_]; [|done].
    by apply elem_of_nil in Hin.
  - cbn [push]. destruct (String.eqb_spec k coll) as [->|Hne].
    + destruct (decide (coll ∈ ((coll, ds) :: rest).*1)) as [_|Hnin];
        [done|]. exfalso. apply Hnin. by left.
    + change (((k, ds) :: push coll d rest).*1)
        with (k :: (push coll d rest).*1).
      rewrite IH.
      change (((k, ds) :: rest).*1) with (k :: rest.*1).
      destruct (decide (coll ∈ rest.*1)) as [Hin|Hnin];
        destruct (decide (coll ∈ k :: rest.*1)) as [Hin'|Hnin']; try done.
      * exfalso. apply Hnin'. by right.
      * apply elem_of_cons in Hin' as [?|?]; congruence.
Qed.

Lemma tidy_push (coll : string) (d : CommitData) (buf : Buffer) :
  tidy buf -> tidy (push coll d buf).
Proof.
  intros [Hnd Hne]. split.
  - rewrite keys_push. destruct (decide (coll ∈ buf.*1)); [done|].
    apply NoDup_app. split_and!; [done | | apply NoDup_singleton].
    intros x Hx Hx'. apply list_elem_of_singleton in Hx'. by subst.
  - clear Hnd. induction buf as [|[k ds] rest IH]; simpl.
    + by repeat constructor.
    + apply Forall_cons in Hne as [Hds Hrest].
      destruct (String.eqb k coll); constructor; simpl; try done.
      * by destruct ds.
      * by apply IH.
Qed.

(** X9: what the loop over the items of a snapshot does to the buffer.
    It takes the items in order up to the first one it cannot take (a time
    outside the range of [Date], or a collection named like a property of
    [Object.prototype]), and for every collection the buffer then reads:
    what it read before, followed by the records of the items taken for
    that collection, in order. Nothing that was in the buffer is lost or
    moved, also when the loop throws. *)
Theorem consume_appends_per_collection (parseDate parseTID : string -> option Z)
    (now : Z) (did : string) (es : list Entry) (buf buf' : Buffer)
    (ok : bool) :
  consume parseDate parseTID now did es buf = (buf', ok) ->
  exists taken,
    (if ok then taken = es
     else exists e rest, es = taken ++ e :: rest
            /\ accepted parseDate parseTID now e = false)
    /\ Forall (fun e => accepted parseDate parseTID now e = true) taken
    /\ forall c,
         records c buf'
         = records c buf
           ++ (record_of parseDate parseTID now did
                 <$> filter (fun e => e_collection e = c) taken).
Proof.
  revert buf. induction es as [|e es IH]; intros buf; simpl.
  - intros [= <- <-]. exists []. split_and!; [done | done |].
    intros c. by rewrite app_nil_r.
  - unfold accepted in *.
    destruct (valid_date _) eqn:Hv; simpl.
    2:{ intros [= <- <-]. exists []. split_and!; [| done |].
        - exists e, es. by rewrite Hv.
        - intros c. by rewrite app_nil_r. }
    destruct (inherited_key _) eqn:Hk; simpl.
    { intros [= <- <-]. exists []. split_and!; [| done |].
      - exists e, es. by rewrite Hv, Hk.
      - intros c. by rewrite app_nil_r. }
    intros Hc. apply IH in Hc as (taken & Hok & Hacc & Hrec).
    exists (e :: taken). split_and!.
    + destruct ok; [by subst|].
      destruct Hok as (e' & rest & -> & He'). by exists e', rest.
    + constructor; [by rewrite Hv, Hk | done].
    + intros c. rewrite Hrec, records_push.
      rewrite filter_cons. fold (record_of parseDate parseTID now did e).
      destruct (String.eqb_spec (e_collection e) c) as [Heq|Hne].
      * rewrite decide_True by done. by rewrite <- app_assoc.
      * by rewrite decide_False by done.
Qed.

Lemma consume_appends_per_collection_witness :
  exists taken,
    taken = (iterate_then_fail []).1
    /\ Forall (fun e => accepted parseDate parseTID 1800000000000 e = true)
         taken
    /\ forall c,
         records c [("app.bsky.feed.post", [post1])]
         = records c []
           ++ (record_of parseDate parseTID 1800000000000 "did:plc:abc"
                 <$> filter (fun e => e_collection e = c) taken).
Proof.
  exact (consume_appends_per_collection parseDate parseTID 1800000000000
           "did:plc:abc" (iterate_then_fail []).1 []
           [("app.bsky.feed.post", [post1])] true eq_refl).
Defined.

(** X10: the loop keeps the buffer in the shape [push] gives it: one entry
    per collection and no entry without records, whether it runs to the end
    or throws. *)
Theorem consume_keeps_buffer_tidy (parseDate parseTID : string -> option Z)
    (now : Z) (did : string) (es : list Entry) (buf : Buffer) :
  tidy buf -> tidy (consume parseDate parseTID now did es buf).1.
Proof.
  revert buf. induction es as [|e es IH]; intros buf Ht; simpl; [done|].
  destruct (valid_date _); simpl; [|done].
  destruct (inherited_key _); simpl; [done|].
  by apply IH, tidy_push.
Qed.

Lemma consume_keeps_buffer_tidy_witness :
  tidy (consume parseDate parseTID 1800000000000 "did:plc:abc"
          (iterate_then_fail []).1 []).1.
Proof.
  apply consume_keeps_buffer_tidy. split; constructor.
Defined.

(** [Object.entries] lists every entry of the buffer once. *)
Lemma insert_index_perm (i : Z) (e : string * list CommitData)
    (l : list (Z * (string * list CommitData))) :
  (insert_index i e l).*2 ≡ₚ e :: l.*2.
Proof.
  induction l as [|[j e'] l IH]; simpl; [done|].
  destruct (i <? j); simpl; [done|].
  rewrite IH. apply perm_swap.
Qed.

Lemma entries_perm (buf : Buffer) : entries buf ≡ₚ buf.
Proof.
  unfold entries. induction buf as [|e buf IH]; simpl; [done|].
  rewrite filter_cons.
  destruct (array_index e.1) as [i|] eqn:Hi.
  - rewrite decide_False by done. rewrite insert_index_perm. simpl.
    by rewrite IH.
  - rewrite decide_True by done. rewrite <- Permutation_middle.
    by rewrite IH.
Qed.

Lemma elem_of_batches (m : CommitMessage) (buf : Buffer) :
  m ∈ batches buf <-> (collection m, commits m) ∈ buf.
Proof.
  unfold batches. rewrite <- (entries_perm buf) at 2.
  rewrite list_elem_of_fmap. split.
  - by intros ([k ds] & -> & Hin).
  - intros Hin. exists (collection m, commits m). by destruct m.
Qed.

Lemma consume_ok (parseDate parseTID : string -> option Z) (now : Z)
    (did : string) (es : list Entry) (buf : Buffer) :
  (consume parseDate parseTID now did es buf).2
  = forallb (accepted parseDate parseTID now) es.
Proof.
  revert buf. induction es as [|e es IH]; intros buf; simpl; [done|].
  unfold accepted at 1.
  destruct (valid_date _); simpl; [|done].
  destruct (inherited_key _); simpl; [done|]. apply IH.
Qed.

(** X12: a job that names no account, or whose snapshot is not on disk, or
    whose snapshot is empty, changes nothing: no record is buffered, the
    account is not marked seen, and nothing is deleted; an empty snapshot
    stays on disk. *)
Theorem process_skips (parseDate parseTID : string -> option Z)
    (iterateAtpRepo : list byte -> list Entry * bool) (dir : string)
    (now : Z) (redis_ok : bool) (did : option string) (s : State) :
  falsy did = true
  \/ files s !! Fetch.path_join dir (default "" did) = None
  \/ files s !! Fetch.path_join dir (default "" did) = Some [] ->
  process parseDate parseTID iterateAtpRepo dir now redis_ok did s
  = (s, Skipped).
Proof.
  unfold process. intros [Hd | [Hf | Hf]].
  - by rewrite Hd.
  - destruct (falsy did); [done|]. by rewrite Hf.
  - destruct (falsy did); [done|]. by rewrite Hf.
Qed.

Lemma process_skips_witness :
  process parseDate parseTID iterate_then_fail "/tmp/repos" 1800000000000
    true (Some "did:plc:other") one_snapshot
  = (one_snapshot, Skipped).
Proof.
  apply process_skips. right. left. reflexivity.
Defined.

(** X13: a job whose snapshot is read and is not empty marks the account
    seen exactly when every item was taken, the iteration completed and
    Redis accepted the write; otherwise the Seen-Set is as before. Either
    way the buffer holds what the loop pushed, and the job itself sends
    nothing. *)
Theorem process_marks_seen (parseDate parseTID : string -> option Z)
    (iterateAtpRepo : list byte -> list Entry * bool) (dir : string)
    (now : Z) (redis_ok : bool) (did : string) (s : State)
    (repo : list byte) :
  did <> "" ->
  files s !! Fetch.path_join dir did = Some repo ->
  repo <> [] ->
  let entries := (iterateAtpRepo repo).1 in
  let ok := forallb (accepted parseDate parseTID now) entries
            && (iterateAtpRepo repo).2 && redis_ok in
  exists s',
    process parseDate parseTID iterateAtpRepo dir now redis_ok (Some did) s
    = (s', Decoded ok)
    /\ seen s' = (if ok then {[did]} ∪ seen s else seen s)
    /\ commitData s'
       = (consume parseDate parseTID now did entries (commitData s)).1
    /\ sent s' = sent s.
Proof.
  intros Hdid Hfile Hne entries ok. unfold process. simpl.
  apply String.eqb_neq in Hdid. rewrite Hdid, Hfile.
  destruct repo as [|b repo]; [done|]. simpl.
  subst entries ok.
  destruct (iterateAtpRepo (b :: repo)) as [entries complete]. simpl.
  rewrite <- (consume_ok parseDate parseTID now did entries (commitData s)).
  destruct (consume _ _ _ _ _ _) as [buf pushed]. simpl.
  unfold unlink. simpl. rewrite Hfile.
  eexists. split_and!; done.
Qed.

Lemma process_marks_seen_witness :
  exists s',
    process parseDate parseTID iterate_then_fail "/tmp/repos" 1800000000000
      true (Some "did:plc:abc") one_snapshot
    = (s', Decoded false)
    /\ seen s' = ∅.
Proof.
  destruct (process_marks_seen parseDate parseTID iterate_then_fail
              "/tmp/repos" 1800000000000 true "did:plc:abc" one_snapshot
              [x3a; xa2]%byte ltac:(discriminate) eq_refl
              ltac:(discriminate)) as (s' & Hp & Hseen & _).
  exists s'. split; [exact Hp | exact Hseen].
Defined.

End RepoWorkerExtras.

Section PipelineExtras.
Import Js RepoWorker BufferSpec Supervisor Design Scenario.

(** X14: the worker and the primary together. A message that a tick of
    [sendCommits] sends from a buffer of the shape [push] gives never
    makes the listener of "message" throw while the workers it routes to
    are alive, as long as the collection is not the empty string; it is
    never dropped as empty. A batch whose collection is the empty string
    makes the listener throw. *)
Theorem worker_batches_pass_shape_test (buf : Buffer) (m : CommitMessage)
    (random : Q) (s : Supervisor.State) :
  tidy buf -> m ∈ batches buf -> routable s ->
  commits m <> []
  /\ (collection m <> "" ->
      invalid (Some (of_commit m)) = false
      /\ exists s', on_message random (Some (of_commit m)) s = Return s')
  /\ (collection m = "" ->
      exists e, on_message random (Some (of_commit m)) s = Throw e).
Proof.
  intros [_ Hne] Hm (Hroute & Hwr & Hwr2).
  assert (Hc : commits m <> []).
  { apply elem_of_batches in Hm.
    exact (proj1 (Forall_forall _ _) Hne _ Hm). }
  split_and!; [done | |].
  - intros Hcoll.
    assert (Hok : invalid (Some (of_commit m)) = false).
    { apply not_true_is_false. rewrite invalid_spec. simpl.
      intros [?|[?|[?|?]]]; congruence. }
    split; [done|]. unfold on_message. rewrite Hok. simpl.
    destruct (commits m) as [|c cs]; [done|]. simpl.
    destruct (collectionToWriteWorkerId s !! collection m) as [wid|] eqn:Hw;
      [|by eexists].
    destruct (Hroute _ _ Hw) as [q Hq]. rewrite Hq.
    assert (Hpick : is_Some (cluster_workers s !! pick random s)).
    { unfold pick. by destruct (negb _). }
    destruct Hpick as [q' Hq']. rewrite Hq'. by eexists.
  - intros Hcoll.
    assert (Hbad : invalid (Some (of_commit m)) = true).
    { rewrite invalid_spec. simpl. right. right. left. by rewrite Hcoll. }
    unfold on_message. rewrite Hbad. by eexists.
Qed.

Lemma worker_batches_pass_shape_test_witness :
  exists s',
    on_message (3 # 4)
      (Some (of_commit {| collection := "app.bsky.feed.post";
                          commits := [post1] |})) started
    = Return s'.
Proof.
  destruct (worker_batches_pass_shape_test (commitData one_post)
              {| collection := "app.bsky.feed.post"; commits := [post1] |}
              (3 # 4) started) as (_ & Hgood & _).
  - split; simpl; repeat constructor; [apply not_elem_of_nil | discriminate].
  - apply elem_of_batches. simpl. by left.
  - exact started_routable.
  - exact (proj2 (Hgood ltac:(discriminate))).
Defined.

End PipelineExtras.

(* ===================================================================== *)
(** * More properties of the supervisor                                   *)
(* ===================================================================== *)

Section SupervisorExtras.
Import Js Supervisor SupervisorSpec.

Variable pid_of : nat -> nat.
Variable allocations : list (list string).
Hypothesis pids_distinct : forall a b, pid_of a = pid_of b -> a = b.

Local Abbreviation healthy := (healthy pid_of allocations).
Local Abbreviation repo_sound := (repo_sound pid_of).

(** No worker has an id that is still to be handed out. *)
Lemma healthy_free (s : State) (k : nat) :
  healthy s -> (next_id s <= k)%nat -> cluster_workers s !! k = None.
Proof.
  intros (Hsound & _) Hk.
  destruct (cluster_workers s !! k) as [q|] eqn:Hq; [|done].
  destruct (live_fresh _ _ _ Hsound _ _ Hq) as (? & _). lia.
Qed.

(** Adding a worker under an unused id adds one to the live workers of its
    role and none to the others. *)
Lemma live_size_insert (r : Role) (m : gmap nat Proc) (n : nat) (new : Proc) :
  m !! n = None ->
  size (filter (fun ip : nat * Proc => role (kind ip.2) = r) (<[n := new]> m))
  = (size (filter (fun ip : nat * Proc => role (kind ip.2) = r) m)
     + if decide (role (kind new) = r) then 1 else 0)%nat.
Proof.
  intros Hn. rewrite map_filter_insert. simpl.
  destruct (decide (role (kind new) = r)) as [Hr|Hr].
  - rewrite map_size_insert_None; [lia|].
    apply map_lookup_filter_None. by left.
  - rewrite delete_id by done. lia.
Qed.

(** A route target is a live write-by-collection worker whose slot lists
    the collection. *)
Lemma healthy_route_slot (s : State) (c : string) (id : nat) :
  healthy s -> collectionToWriteWorkerId s !! c = Some id ->
  exists q i cs,
    cluster_workers s !! id = Some q /\ kind q = WriteCollection i
    /\ allocations !! i = Some cs /\ c ∈ cs.
Proof.
  intros (Hsound & Hslotted & Hlive & _) Hc.
  destruct (Hlive _ _ Hc) as [q Hq].
  destruct (Hslotted _ _ Hc) as (_ & i & cs & Hi & Ha & Hin).
  destruct (table_sound _ _ _ Hsound _ _ Hi) as (id0 & He & _ & _ & Hk).
  apply pids_distinct in He as <-. exists q, i, cs. split_and!; try done.
  by apply Hk.
Qed.

(** X15: routing in every state of a run. Each collection of the route
    table goes to a worker that is alive, writes by collection, and has a
    slot that lists the collection; and when no collection is listed in two
    slots, a collection goes to a worker of the same slot in every state of
    the run, whatever workers have exited in between. *)
Theorem reachable_routes_to_slot (numCPUs : nat) (s : State) (c : string)
    (id : nat) :
  reachable pid_of allocations numCPUs s ->
  collectionToWriteWorkerId s !! c = Some id ->
  (exists q i cs,
     cluster_workers s !! id = Some q /\ kind q = WriteCollection i
     /\ allocations !! i = Some cs /\ c ∈ cs)
  /\ ((forall i j cs cs' x, allocations !! i = Some cs ->
         allocations !! j = Some cs' -> x ∈ cs -> x ∈ cs' -> i = j) ->
      forall s2 id2,
        reachable pid_of allocations numCPUs s2 ->
        collectionToWriteWorkerId s2 !! c = Some id2 ->
        exists q q2 i,
          cluster_workers s !! id = Some q /\ kind q = WriteCollection i
          /\ cluster_workers s2 !! id2 = Some q2
          /\ kind q2 = WriteCollection i).
Proof.
  intros Hr Hc.
  apply (reachable_healthy pid_of allocations pids_distinct) in Hr.
  destruct (healthy_route_slot s c id Hr Hc) as (q & i & cs & Hq & Hk & Ha & Hin).
  split; [by exists q, i, cs|].
  intros Hdisj s2 id2 Hr2 Hc2.
  apply (reachable_healthy pid_of allocations pids_distinct) in Hr2.
  destruct (healthy_route_slot s2 c id2 Hr2 Hc2)
    as (q2 & j & cs' & Hq2 & Hk2 & Ha' & Hin').
  assert (i = j) as <- by (by eapply Hdisj).
  by exists q, q2, i.
Qed.

Lemma repo_sound_fork (k : Kind) (s s' : State) :
  repo_sound s ->
  cluster_workers s'
  = <[next_id s := {| pid := pid_of (next_id s); kind := k |}]>
      (cluster_workers s) ->
  next_id s' = S (next_id s) ->
  match k with
  | Repo => repo s' = {[pid_of (next_id s)]} ∪ repo s
  | _ => repo s' = repo s
  end ->
  repo_sound s'.
Proof.
  intros Hrs Hc Hn Hr p Hp.
  assert (Hold : p ∈ repo s ->
            exists id, p = pid_of id /\ (id < next_id s')%nat
              /\ forall q, cluster_workers s' !! id = Some q ->
                           kind q = Repo).
  { intros Hp0. destruct (Hrs _ Hp0) as (id & -> & Hlt & Hk).
    exists id. rewrite Hn, Hc. split_and!; [done | lia |].
    intros q. rewrite lookup_insert_ne by lia. apply Hk. }
  destruct k as [|j|]; try (rewrite Hr in Hp; by apply Hold).
  rewrite Hr in Hp. apply elem_of_union in Hp as [Hp|Hp]; [|by apply Hold].
  apply elem_of_singleton in Hp as ->.
  exists (next_id s). rewrite Hn, Hc. split_and!; [done | lia |].
  intros q. rewrite lookup_insert_eq. by intros [= <-].
Qed.

Lemma repo_sound_delete (id : nat) (s s' : State) :
  repo_sound s ->
  cluster_workers s' = delete id (cluster_workers s) ->
  next_id s' = next_id s -> repo s' = repo s ->
  repo_sound s'.
Proof.
  intros Hrs Hc Hn Hr p. rewrite Hr, Hn. intros Hp.
  destruct (Hrs _ Hp) as (id' & -> & Hlt & Hk).
  exists id'. split_and!; try done.
  intros q. rewrite Hc. intros Hq.
  apply lookup_delete_Some in Hq as [_ Hq]. eauto.
Qed.

Lemma kill_book (k : nat) (s : State) :
  cluster_workers (kill k s) = cluster_workers s
  /\ next_id (kill k s) = next_id s /\ repo (kill k s) = repo s.
Proof. unfold kill. by destruct (cluster_workers s !! k). Qed.

(** What one exit does to the numbers of live workers, whenever the
    listener returns: the write-by-collection and repo workers are as many
    as before, the write-by-record workers at least as many. *)
Lemma worker_exit_counts (id : nat) (s s' : State) :
  healthy s -> repo_sound s ->
  worker_exit pid_of allocations id s = Return s' ->
  (forall r, r <> WriteRecordRole -> size (live r s') = size (live r s))
  /\ (size (live WriteRecordRole s) <= size (live WriteRecordRole s'))%nat
  /\ repo_sound s'.
Proof.
  intros Hh Hrs. pose proof Hh as (Hsound & _ & _ & [Hfirst Hsecond]).
  unfold worker_exit.
  destruct (cluster_workers s !! id) as [q|] eqn:Hq;
    [|by intros [= <-]].
  destruct (live_fresh _ _ _ Hsound _ _ Hq) as (Hlt & Hpq & Hp0).
  set (s1 := {| cluster_workers := delete id (cluster_workers s) |}).
  assert (Hrs1 : repo_sound s1) by (by eapply repo_sound_delete).
  assert (Hfree : cluster_workers s !! next_id s = None)
    by (by apply healthy_free).
  (* one replacement of the same role *)
  assert (Hone : forall new r,
            role (kind new) = role (kind q) ->
            size (filter (fun ip : nat * Proc => role (kind ip.2) = r)
                    (<[next_id s := new]> (delete id (cluster_workers s))))
            = size (live r s)).
  { intros new r Hrole. by apply (live_size_replace r _ id _ q). }
  (* the pair forked anew in the place of one write-by-record worker *)
  assert (Hpair : forall k s2,
            kind q = WriteRecord ->
            spawnWriteRecordWorker pid_of (kill k s1) = Return s2 ->
            (forall r, r <> WriteRecordRole ->
                       size (live r s2) = size (live r s))
            /\ (size (live WriteRecordRole s)
                <= size (live WriteRecordRole s2))%nat
            /\ repo_sound s2).
  { intros k s2 Hk Hsp.
    destruct (kill_book k s1) as (Hkc & Hkn & Hkr).
    assert (Hrsk : repo_sound (kill k s1)).
    { intros p. rewrite Hkr, Hkn. intros Hp.
      destruct (Hrs1 _ Hp) as (id' & ? & ? & Hk'). exists id'.
      by rewrite Hkc. }
    assert (Hall : forall r new1 new2,
              kind new1 = WriteRecord -> kind new2 = WriteRecord ->
              size (filter (fun ip : nat * Proc => role (kind ip.2) = r)
                      (<[S (next_id s) := new2]>
                         (<[next_id s := new1]>
                            (delete id (cluster_workers s)))))
              = (size (live r s)
                 + if decide (WriteRecordRole = r) then 1 else 0)%nat).
    { intros r new1 new2 Hk1 Hk2.
      rewrite live_size_insert.
      - rewrite Hk2. simpl. f_equal. apply Hone. by rewrite Hk1, Hk.
      - rewrite lookup_insert_ne by lia. rewrite lookup_delete_ne by lia.
        apply healthy_free; [done | lia]. }
    pose proof Hsp as Hsp'.
    apply spawnWriteRecordWorker_Return in Hsp' as (Hpid & Hpid2 & Hs2).
    assert (Hc2 : cluster_workers s2
              = <[S (next_id s) := {| pid := pid_of (S (next_id s));
                                      kind := WriteRecord |}]>
                  (<[next_id s := {| pid := pid_of (next_id s);
                                     kind := WriteRecord |}]>
                     (delete id (cluster_workers s)))).
    { rewrite Hs2. simpl. by rewrite Hkc, Hkn. }
    split_and!.
    - intros r Hr. unfold live at 1. rewrite Hc2, Hall by done.
      destruct (decide (WriteRecordRole = r)); [congruence | lia].
    - unfold live at 2. rewrite Hc2, Hall by done.
      destruct (decide (WriteRecordRole = WriteRecordRole)); lia.
    - set (s3 := {| cluster_workers :=
                      <[next_id s := {| pid := pid_of (next_id s);
                                        kind := WriteRecord |}]>
                        (delete id (cluster_workers s));
                    next_id := S (next_id s); repo := repo s;
                    writeCollection := writeCollection s;
                    writeRecord := writeRecord s;
                    writeRecord2 := writeRecord2 s;
                    collectionToWriteWorkerId := collectionToWriteWorkerId s;
                    signalled := signalled s; delivered := delivered s |}).
      assert (Hrs3 : repo_sound s3) by (by eapply (repo_sound_fork WriteRecord s1)).
      eapply (repo_sound_fork WriteRecord s3); [done | | |].
      + rewrite Hc2. done.
      + rewrite Hs2. simpl. by rewrite Hkn.
      + rewrite Hs2. simpl. by rewrite Hkr. }
  unfold on_exit. rewrite Hpq.
  destruct (Nat.eqb_spec (pid_of id) 0) as [|_]; [done|].
  change (writeCollection s1) with (writeCollection s).
  change (writeRecord s1) with (writeRecord s).
  change (writeRecord2 s1) with (writeRecord2 s).
  change (repo s1) with (repo s).
  destruct (writeCollection s !! pid_of id) as [i|] eqn:Hi.
  - intros Hsp.
    destruct (table_sound _ _ _ Hsound _ _ Hi) as (id0 & He & _ & _ & Hk).
    apply pids_distinct in He as <-. specialize (Hk _ Hq).
    pose proof Hsp as Hsp'.
    apply spawnWriteCollectionWorker_Return in Hsp' as (cs & Ha & Hpid & Hs').
    assert (Hall : forall r, size (live r s') = size (live r s)).
    { intros r. unfold live at 1. rewrite Hs'. simpl. apply Hone.
      by rewrite Hk. }
    split_and!; [intros r _; apply Hall | by rewrite Hall |].
    eapply (repo_sound_fork (WriteCollection i) s1); rewrite ?Hs'; done.
  - destruct (live_fresh _ _ _ Hsound _ _ Hfirst) as (_ & Hp1 & _).
    destruct (live_fresh _ _ _ Hsound _ _ Hsecond) as (_ & Hp2 & _).
    simpl in Hp1, Hp2.
    destruct (Nat.eqb_spec (pid_of id) (writeRecord s).1) as [E1|E1].
    { intros Hsp. eapply Hpair; [|exact Hsp].
      rewrite Hp1 in E1. apply pids_distinct in E1 as ->.
      rewrite Hq in Hfirst. by injection Hfirst as ->. }
    destruct (Nat.eqb_spec (pid_of id) (writeRecord2 s).1) as [E2|E2].
    { intros Hsp. eapply Hpair; [|exact Hsp].
      rewrite Hp2 in E2. apply pids_distinct in E2 as ->.
      rewrite Hq in Hsecond. by injection Hsecond as ->. }
    destruct (decide (pid_of id ∈ repo s)) as [Hin|Hnin]; [|done].
    intros Hsp.
    destruct (Hrs _ Hin) as (id0 & He & _ & Hk).
    apply pids_distinct in He as <-. specialize (Hk _ Hq).
    pose proof Hsp as Hsp'.
    apply spawnRepoWorker_Return in Hsp' as (Hpid & Hs').
    assert (Hall : forall r, size (live r s') = size (live r s)).
    { intros r. unfold live at 1. rewrite Hs'. simpl. apply Hone.
      by rewrite Hk. }
    split_and!; [intros r _; apply Hall | by rewrite Hall |].
    eapply (repo_sound_fork Repo s1); rewrite ?Hs'; done.
Qed.

Lemma times_repo_counts (k : nat) (s s' : State) :
  healthy s -> repo_sound s ->
  times k (spawnRepoWorker pid_of) s = Return s' ->
  (forall r, size (live r s')
             = (size (live r s) + if decide (RepoRole = r) then k else 0)%nat)
  /\ repo_sound s'.
Proof.
  revert s. induction k as [|k IH]; intros s Hh Hrs; simpl.
  - intros [= <-]. split; [|done].
    intros r. case_match; lia.
  - unfold mbind, result_bind.
    destruct (spawnRepoWorker pid_of s) as [s1|] eqn:Hsp; [|done].
    intros Ht. pose proof Hh as (Hsound & Hslotted & Hlive & Hpaired).
    destruct (spawnRepoWorker_healthy pid_of allocations pids_distinct s s1)
      as (? & ? & ? & Hp); try done.
    apply spawnRepoWorker_Return in Hsp as (Hpid & Hs1).
    assert (Hrs1 : repo_sound s1).
    { eapply (repo_sound_fork Repo s); rewrite ?Hs1; done. }
    destruct (IH s1) as [Hcount Hrs']; [by split_and!; auto | done | done |].
    split; [|done]. intros r. rewrite Hcount.
    unfold live at 1. rewrite Hs1. simpl.
    rewrite live_size_insert by (by apply healthy_free). cbn [kind role].
    unfold live. destruct (decide (RepoRole = r)); lia.
Qed.

(** After start-up: three write-by-collection workers, two write-by-record
    workers and [numCPUs * 3 - 3] repo workers are alive. *)
Lemma startup_counts (numCPUs : nat) (s : State) :
  startup pid_of allocations numCPUs = Return s ->
  size (live WriteCollectionRole s) = 3%nat
  /\ size (live WriteRecordRole s) = 2%nat
  /\ size (live RepoRole s) = (numCPUs * 3 - 3)%nat
  /\ repo_sound s.
Proof.
  intros Hstart. pose proof Hstart as Hrun. revert Hrun.
  unfold startup, mbind, result_bind.
  destruct (spawnWriteCollectionWorker _ _ 0 initial) as [s1|] eqn:H1;
    [|done].
  destruct (spawnWriteCollectionWorker _ _ 1 s1) as [s2|] eqn:H2; [|done].
  destruct (spawnWriteCollectionWorker _ _ 2 s2) as [s3|] eqn:H3; [|done].
  pose proof H1 as H1'. pose proof H2 as H2'. pose proof H3 as H3'.
  apply spawnWriteCollectionWorker_Return in H1' as (? & _ & _ & Hs1).
  apply spawnWriteCollectionWorker_Return in H2' as (? & _ & _ & Hs2).
  apply spawnWriteCollectionWorker_Return in H3' as (? & _ & _ & Hs3).
  assert (Hwr : writeRecord s3 = (0, 0)%nat) by (by rewrite Hs3, Hs2, Hs1).
  rewrite Hwr. cbn [fst Nat.eqb].
  destruct (spawnWriteRecordWorker _ s3) as [s4|] eqn:H4; [|done].
  intros Ht.
  assert (Hh4 : healthy s4).
  { apply (startup_healthy pid_of allocations pids_distinct 0).
    unfold startup, mbind, result_bind. rewrite H1, H2, H3, Hwr.
    cbn [fst Nat.eqb]. by rewrite H4. }
  apply spawnWriteRecordWorker_Return in H4 as (_ & _ & Hs4).
  assert (Hrs4 : repo_sound s4).
  { intros p. rewrite Hs4, Hs3, Hs2, Hs1. simpl. intros Hp.
    by apply elem_of_empty in Hp. }
  destruct (times_repo_counts _ _ _ Hh4 Hrs4 Ht) as [Hcount Hrs].
  assert (H4c : size (live WriteCollectionRole s4) = 3%nat
                /\ size (live WriteRecordRole s4) = 2%nat
                /\ size (live RepoRole s4) = 0%nat).
  { rewrite Hs4, Hs3, Hs2, Hs1. split_and!; vm_compute; reflexivity. }
  destruct H4c as (Hc1 & Hc2 & Hc3).
  rewrite !Hcount, Hc1, Hc2, Hc3.
  split_and!; [by rewrite decide_False | by rewrite decide_False | | done].
  rewrite decide_True by done. lia.
Qed.

(** X16: the numbers of live workers throughout a run. In every state of a
    run three write-by-collection workers and [numCPUs * 3 - 3] repo
    workers are alive, as after start-up, and at least two write-by-record
    workers: the exit of a worker never leaves a role short. *)
Theorem reachable_live_counts (numCPUs : nat) (s : State) :
  reachable pid_of allocations numCPUs s ->
  size (live WriteCollectionRole s) = 3%nat
  /\ size (live RepoRole s) = (numCPUs * 3 - 3)%nat
  /\ (2 <= size (live WriteRecordRole s))%nat.
Proof.
  intros Hr.
  assert (Hgen : size (live WriteCollectionRole s) = 3%nat
                 /\ size (live RepoRole s) = (numCPUs * 3 - 3)%nat
                 /\ (2 <= size (live WriteRecordRole s))%nat
                 /\ repo_sound s).
  { induction Hr as [s Hstart | s e s' Hr IH Hstep].
    - destruct (startup_counts _ _ Hstart) as (H1 & H2 & H3 & H4).
      split_and!; [done | done | lia | done].
    - destruct IH as (H1 & H2 & H3 & H4).
      apply (reachable_healthy pid_of allocations pids_distinct) in Hr.
      destruct e as [id | random message]; simpl in Hstep.
      + destruct (worker_exit_counts _ _ _ Hr H4 Hstep) as (Hsame & Hle & Hrs).
        rewrite !Hsame by done. split_and!; [done | done | lia | done].
      + apply on_message_book in Hstep as (Hc & Hn & Hrp & _).
        unfold live. rewrite Hc. split_and!; [done | done | done |].
        intros p. rewrite Hrp, Hn. intros Hp.
        destruct (H4 _ Hp) as (id & ? & ? & Hk). exists id. by rewrite Hc. }
  by destruct Hgen as (? & ? & ? & _).
Qed.

(** X17: start-up needs three slots. With process ids that are never 0,
    start-up returns exactly when [writeWorkerAllocations] has at least
    three slots; with fewer it throws while forking the write-by-collection
    workers. *)
Theorem startup_needs_three_slots (numCPUs : nat) :
  (forall id, pid_of id <> 0%nat) ->
  (3 <= length allocations)%nat
  <-> exists s, startup pid_of allocations numCPUs = Return s.
Proof.
  intros Hpid.
  assert (Hwc : forall i s, is_Some (allocations !! i) ->
            exists s', spawnWriteCollectionWorker pid_of allocations i s
                       = Return s').
  { intros i s [cs Ha]. unfold spawnWriteCollectionWorker, fork. simpl.
    destruct (Nat.eqb_spec (pid_of (next_id s)) 0) as [E|_];
      [by apply Hpid in E|].
    rewrite Ha. by eexists. }
  assert (Hrepo : forall k s, exists s',
            times k (spawnRepoWorker pid_of) s = Return s').
  { induction k as [|k IH]; intros s; simpl; [by eexists|].
    unfold mbind, result_bind, spawnRepoWorker, fork. simpl.
    destruct (Nat.eqb_spec (pid_of (next_id s)) 0) as [E|_];
      [by apply Hpid in E|].
    apply IH. }
  split.
  - intros Hlen. unfold startup, mbind, result_bind.
    destruct (Hwc 0%nat initial) as [s1 ->];
      [apply lookup_lt_is_Some; lia|].
    destruct (Hwc 1%nat s1) as [s2 H2]; [apply lookup_lt_is_Some; lia|].
    rewrite H2.
    destruct (Hwc 2%nat s2) as [s3 H3]; [apply lookup_lt_is_Some; lia|].
    rewrite H3.
    destruct (fst (writeRecord s3) =? 0)%nat; [|apply Hrepo].
    unfold spawnWriteRecordWorker, fork. simpl.
    destruct (Nat.eqb_spec (pid_of (next_id s3)) 0) as [E|_];
      [by apply Hpid in E|]. simpl.
    destruct (Nat.eqb_spec (pid_of (S (next_id s3))) 0) as [E|_];
      [by apply Hpid in E|].
    apply Hrepo.
  - intros [s Hs]. revert Hs. unfold startup, mbind, result_bind.
    destruct (spawnWriteCollectionWorker _ _ 0 initial) as [s1|]; [|done].
    destruct (spawnWriteCollectionWorker _ _ 1 s1) as [s2|]; [|done].
    destruct (spawnWriteCollectionWorker _ _ 2 s2) as [s3|] eqn:H3; [|done].
    intros _.
    apply spawnWriteCollectionWorker_Return in H3 as (cs & Ha & _).
    apply lookup_lt_Some in Ha. lia.
Qed.

(** X18: the exit of a write-by-collection worker in a run (with a process
    id other than 0 for the next worker). The listener returns; the worker
    that exited is gone and one worker of the same slot is alive under the
    next worker id; every collection of the slot is routed to it, and every
    other collection is routed where it was. *)
Theorem exit_keeps_routes (numCPUs : nat) (s : State) (id : nat) (q : Proc)
    (i : nat) (cs : list string) :
  reachable pid_of allocations numCPUs s ->
  cluster_workers s !! id = Some q -> kind q = WriteCollection i ->
  allocations !! i = Some cs ->
  pid_of (next_id s) <> 0%nat ->
  exists s',
    worker_exit pid_of allocations id s = Return s'
    /\ cluster_workers s' !! id = None
    /\ cluster_workers s' !! next_id s
       = Some {| pid := pid_of (next_id s); kind := WriteCollection i |}
    /\ (forall c, c ∈ cs ->
          collectionToWriteWorkerId s' !! c = Some (next_id s))
    /\ (forall c, c ∉ cs ->
          collectionToWriteWorkerId s' !! c
          = collectionToWriteWorkerId s !! c).
Proof.
  intros Hr Hq Hk Ha Hpid.
  apply (reachable_healthy pid_of allocations pids_distinct) in Hr.
  pose proof Hr as (Hsound & _).
  destruct (live_fresh _ _ _ Hsound _ _ Hq) as (Hlt & Hpq & Hp0).
  pose proof (slot_tracked _ _ _ Hsound _ _ _ Hq Hk) as Hi.
  unfold worker_exit, on_exit. rewrite Hq, Hpq. simpl.
  apply Nat.eqb_neq in Hp0 as Hp0'. rewrite Hp0', Hi.
  unfold spawnWriteCollectionWorker, fork. simpl.
  apply Nat.eqb_neq in Hpid as Hpid'. rewrite Hpid', Ha.
  eexists. split; [reflexivity|]. simpl. split_and!.
  - rewrite lookup_insert_ne by lia. apply lookup_delete_eq.
  - apply lookup_insert_eq.
  - intros c Hin. rewrite route_after. by rewrite decide_True.
  - intros c Hnin. rewrite route_after. by rewrite decide_False.
Qed.

End SupervisorExtras.

Section SupervisorExtraWitnesses.
Import Js Supervisor Scenario.

Lemma reachable_routes_to_slot_witness :
  exists q i cs,
    cluster_workers started !! 1%nat = Some q /\ kind q = WriteCollection i
    /\ allocations !! i = Some cs /\ "app.bsky.feed.like" ∈ cs.
Proof.
  exact (proj1 (reachable_routes_to_slot pid_of allocations pid_of_inj 2
                  started "app.bsky.feed.like" 1%nat started_reachable
                  eq_refl)).
Defined.

Lemma reachable_live_counts_witness :
  size (live WriteCollectionRole started) = 3%nat
  /\ size (live RepoRole started) = (2 * 3 - 3)%nat
  /\ (2 <= size (live WriteRecordRole started))%nat.
Proof.
  exact (reachable_live_counts pid_of allocations pid_of_inj 2 started
           started_reachable).
Defined.

Lemma startup_needs_three_slots_witness :
  (3 <= length allocations)%nat
  <-> exists s, startup pid_of allocations 2 = Return s.
Proof.
  apply startup_needs_three_slots. unfold pid_of. lia.
Defined.

Lemma exit_keeps_routes_witness :
  exists s',
    worker_exit pid_of allocations 2 started = Return s'
    /\ cluster_workers s' !! 2%nat = None
    /\ cluster_workers s' !! next_id started
       = Some {| pid := pid_of (next_id started); kind := WriteCollection 1 |}
    /\ (forall c, c ∈ ["app.bsky.graph.follow"] ->
          collectionToWriteWorkerId s' !! c = Some (next_id started))
    /\ (forall c, c ∉ ["app.bsky.graph.follow"] ->
          collectionToWriteWorkerId s' !! c
          = collectionToWriteWorkerId started !! c).
Proof.
  apply (exit_keeps_routes pid_of allocations pid_of_inj 2 started 2
           {| pid := 1002; kind := WriteCollection 1 |} 1
           ["app.bsky.graph.follow"] started_reachable);
    [reflexivity | reflexivity | reflexivity | vm_compute; lia].
Defined.

End SupervisorExtraWitnesses.

(* ===================================================================== *)
(** * Properties of the sequential replay                                 *)
(* ===================================================================== *)

Section ReplayExtras.
Import Replay.

Variable startPosition : Z.
Variable maxPerSecond : Z.

Local Abbreviation iteration := (iteration startPosition maxPerSecond).
Local Abbreviation run := (run startPosition maxPerSecond).

Lemma run_cons (st : Loop) (l : string) (ls : list string) :
  run st (l :: ls) = run (iteration st l) ls.
Proof. reflexivity. Qed.

Lemma position_iteration (st : Loop) (l : string) :
  position (iteration st l) = position st + 1.
Proof. unfold Replay.iteration. by destruct (_ <? _). Qed.

Lemma dispatched_iteration (st : Loop) (l : string) :
  dispatched (trace (iteration st l))
  = dispatched (trace st)
    ++ if position st + 1 <? startPosition then [] else [l].
Proof.
  unfold Replay.iteration, dispatched.
  destruct (position st + 1 <? startPosition); simpl.
  - by rewrite app_nil_r.
  - destruct (maxPerSecond <=? _), (_ =? 0);
      rewrite ?omap_app; simpl; by rewrite ?app_nil_r, <- ?app_assoc.
Qed.

Lemma flushed_iteration (st : Loop) (l : string) :
  flushed (trace (iteration st l))
  = flushed (trace st)
    ++ if (position st + 1 <? startPosition)
          || negb ((position st + 1) mod FLUSH_EVERY_N_MESSAGES =? 0)
       then [] else [position st + 1].
Proof.
  unfold Replay.iteration, flushed.
  destruct (position st + 1 <? startPosition); simpl.
  - by rewrite app_nil_r.
  - destruct (maxPerSecond <=? _), (_ =? 0);
      rewrite ?omap_app; simpl; by rewrite ?app_nil_r, <- ?app_assoc.
Qed.

(** X19: the replay passes to [onMessage] the lines of the file from line
    [startPosition] on (lines counted from 1), each once and in order, and
    ends with [position] at the number of lines; with a start position of
    0 or 1 every line is passed on. *)
Theorem replay_dispatches_from_start (lines : list string) :
  dispatched (trace (run begin lines))
  = drop (Z.to_nat (startPosition - 1)) lines
  /\ position (run begin lines) = Z.of_nat (length lines).
Proof.
  assert (Hgen : forall ls st,
            dispatched (trace (run st ls))
            = dispatched (trace st)
              ++ drop (Z.to_nat (startPosition - 1 - position st)) ls
            /\ position (run st ls) = position st + Z.of_nat (length ls)).
  { induction ls as [|l ls IH]; intros st.
    - simpl. rewrite drop_nil, app_nil_r. split; [done | lia].
    - rewrite run_cons. destruct (IH (iteration st l)) as [Hd Hp].
      rewrite Hd, Hp, dispatched_iteration, position_iteration.
      split; [|simpl length; lia].
      rewrite <- app_assoc. f_equal.
      destruct (Z.ltb_spec (position st + 1) startPosition) as [Hlt|Hge].
      + replace (Z.to_nat (startPosition - 1 - position st))
          with (S (Z.to_nat (startPosition - 1 - (position st + 1))))
          by lia.
        done.
      + replace (Z.to_nat (startPosition - 1 - position st)) with 0%nat
          by lia.
        replace (Z.to_nat (startPosition - 1 - (position st + 1)))
          with 0%nat by lia.
        done. }
  destruct (Hgen lines begin) as [Hd Hp]. simpl in Hd, Hp.
  rewrite Z.sub_0_r in Hd. split; [exact Hd | lia].
Qed.

(** X20: the positions the replay writes to [relay-buffer.pos] are exactly
    the multiples of 100000 among the lines it passes on: every position
    from [startPosition] (and from 1) up to the number of lines that 100000
    divides, and no other. *)
Theorem replay_flushes_multiples (lines : list string) (p : Z) :
  p ∈ flushed (trace (run begin lines))
  <-> 0 < p <= Z.of_nat (length lines) /\ startPosition <= p
      /\ p mod FLUSH_EVERY_N_MESSAGES = 0.
Proof.
  assert (Hgen : forall ls st,
            p ∈ flushed (trace (run st ls))
            <-> p ∈ flushed (trace st)
                \/ (position st < p <= position st + Z.of_nat (length ls)
                    /\ startPosition <= p
                    /\ p mod FLUSH_EVERY_N_MESSAGES = 0)).
  { induction ls as [|l ls IH]; intros st.
    - simpl. split; [by left | intros [?|[? _]]; [done | lia]].
    - rewrite run_cons, IH, flushed_iteration, position_iteration.
      rewrite elem_of_app. simpl length.
      destruct (Z.ltb_spec (position st + 1) startPosition) as [Hlt|Hge];
        simpl.
      + rewrite elem_of_nil. split.
        * intros [ [?| [] ] | (? & ? & ?)]; [by left | right; lia].
        * intros [? | (? & ? & ?)]; [by left; left | right; lia].
      + destruct (Z.eqb_spec ((position st + 1) mod FLUSH_EVERY_N_MESSAGES) 0)
          as [Hm|Hm]; simpl.
        * rewrite list_elem_of_singleton. split.
          -- intros [ [? | ->] | (? & ? & ?)];
               [by left | right; lia | right; lia].
          -- intros [? | (? & ? & ?)]; [by left; left|].
             destruct (decide (p = position st + 1)) as [->|?];
               [by left; right | right; lia].
        * rewrite elem_of_nil. split.
          -- intros [ [?| [] ] | (? & ? & ?)]; [by left | right; lia].
          -- intros [? | (? & ? & ?)]; [by left; left|].
             destruct (decide (p = position st + 1)) as [->|?];
               [done | right; lia]. }
  rewrite Hgen. simpl. rewrite elem_of_nil. split.
  - intros [ [] | (? & ? & ?)]. split_and!; [lia | lia | done | done].
  - intros (? & ? & ?). right. split_and!; [lia | lia | done | done].
Qed.

Lemma burst_snoc (n : Z) (t : list Event) (e : Event) :
  burst_from n (t ++ [e])
  = match e with
    | Sleep => 0
    | Dispatch _ => burst_from n t + 1
    | Flush _ => burst_from n t
    end.
Proof.
  revert n. induction t as [|e' t IH]; intros n; simpl.
  - by destruct e.
  - destruct e'; apply IH.
Qed.

(** X21: the throttle. At every point of the replay, the lines passed to
    [onMessage] since the last sleep of 100 ms number at most one, or fewer
    than a tenth of [maxPerSecond] plus one: between two sleeps the replay
    never passes on more than that. *)
Theorem replay_burst_bounded (lines : list string) :
  let b := burst (trace (run begin lines)) in
  b <= 1 \/ 10 * (b - 1) < maxPerSecond.
Proof.
  assert (Hgen : forall ls st,
            (burst (trace st) <= messagesSinceTimeout st + 1
             /\ (burst (trace st) <= 1
                 \/ 10 * (burst (trace st) - 1) < maxPerSecond)) ->
            let st' := run st ls in
            burst (trace st') <= messagesSinceTimeout st' + 1
            /\ (burst (trace st') <= 1
                \/ 10 * (burst (trace st') - 1) < maxPerSecond)).
  { induction ls as [|l ls IH]; intros st Hst; [done|].
    rewrite run_cons. apply IH. clear IH.
    destruct Hst as [Hb Hm]. unfold Replay.iteration, burst in *.
    destruct (position st + 1 <? startPosition);
      cbn [trace messagesSinceTimeout]; [lia|].
    destruct (Z.leb_spec maxPerSecond (10 * (messagesSinceTimeout st + 1)))
      as [Hthr|Hfree];
      destruct ((position st + 1) mod FLUSH_EVERY_N_MESSAGES =? 0);
      cbn [trace messagesSinceTimeout]; rewrite !burst_snoc; lia. }
  intros b. subst b. apply (Hgen lines begin).
  unfold burst, begin. cbn [trace messagesSinceTimeout burst_from]. lia.
Qed.

End ReplayExtras.
